(** * daugx: the workflow-graph compiler ([Blocks]) and the scheduler
    ([Executor]) of [core/agent], shallowly embedded.

    Floats are modelled by [Q] (exact rationals); Python exceptions by the
    [exn] type of an explicit state-and-error monad; the numpy generator by a
    fixed sequence of draws [draws] and a position in it. *)

From Stdlib Require Import String List Bool Arith Lia QArith Qround.
Import ListNotations.
Open Scope string_scope.
Open Scope list_scope.
Open Scope Q_scope.

(** ** Python exceptions and the state/error monad *)

Inductive exn :=
| KeyError | IndexError | ValueError | AssertionError | TypeError
| ZeroDivisionError | AttributeError | RecursionError.

Definition M (S A : Type) := S -> (exn + (A * S))%type.

Definition ret {S A} (a : A) : M S A := fun s => inr (a, s).
Definition bind {S A B} (m : M S A) (f : A -> M S B) : M S B :=
  fun s => match m s with inl e => inl e | inr (a, s') => f a s' end.
Definition raise {S A} (e : exn) : M S A := fun _ => inl e.
Definition lift {S A} (r : (exn + A)%type) : M S A :=
  fun s => match r with inl e => inl e | inr a => inr (a, s) end.
Definition get {S} : M S S := fun s => inr (s, s).
Definition put {S} (s : S) : M S unit := fun _ => inr (tt, s).

Notation "x <- m ;; k" := (bind m (fun x => k))
  (at level 61, m at next level, right associativity).
Notation "m ;;; k" := (bind m (fun _ => k))
  (at level 61, right associativity).

(** [assert c] as Python's [assert]. *)
Definition assert {S} (c : bool) : M S unit :=
  if c then ret tt else raise AssertionError.

(** ** Rationals as the code's floats *)

Definition Qltb (x y : Q) : bool := negb (Qle_bool y x).
Definition Qleb (x y : Q) : bool := Qle_bool x y.
Definition Qsum (l : list Q) : Q := fold_left Qplus l 0.

(** Python's [a / b] on floats: [ZeroDivisionError] when [b == 0]. *)
Definition pydiv (a b : Q) : exn + Q :=
  if Qeq_bool b 0 then inl ZeroDivisionError else inr (a / b).

(** [xs[i]] and [xs[-1]] *)
Definition py_index {A} (xs : list A) (i : nat) : exn + A :=
  match nth_error xs i with Some x => inr x | None => inl IndexError end.
Definition py_last {A} (xs : list A) : exn + A :=
  match rev xs with x :: _ => inr x | [] => inl IndexError end.

(** ** The random generator of [utils/misc.py]

    One numpy generator is created in [Agent.__init__] and handed to the
    [Executor], to its [Blocks] and to every [Dataset]: all draws come from
    one sequence.  A generator state is the position in [draws]. *)

Section Rng.
Variable draws : nat -> Q.

(** Every stateful component exposes its generator position. *)
Class HasRng (S : Type) := {
  rng_pos : S -> nat;
  rng_set : nat -> S -> S
}.

Context {St : Type} `{HasRng St}.

(** [get_random(gen) = gen.random()] *)
Definition get_random : M St Q :=
  fun s => inr (draws (rng_pos s), rng_set (S (rng_pos s)) s).

(** [new_id(gen) = str(uuid5(BASE_UUID, str(get_random(gen))))]: the id is a
    function of one draw; it is represented by the index of that draw. *)
Definition new_id : M St nat :=
  fun s => inr (rng_pos s, rng_set (S (rng_pos s)) s).

(** [is_executed(p, gen) = get_random(gen) < p] *)
Definition is_executed (p : Q) : M St bool :=
  r <- get_random ;; ret (Qltb r p).

(** The loop of [fetch_by_prob_list] for a given draw [rand]. *)
Fixpoint prob_scan {A} (vs : list A) (ps : list Q) (prob_sum rand : Q) : option A :=
  match vs, ps with
  | v :: vs', p :: ps' =>
      let prob_sum' := prob_sum + p in
      if Qltb rand prob_sum' then Some v else prob_scan vs' ps' prob_sum' rand
  | _, _ => None
  end.

Definition fetch_by_prob_list_at {A} (vs : list A) (ps : list Q) (rand : Q) : exn + A :=
  if Nat.eqb (length vs) (length ps) then
    match prob_scan vs ps 0 rand with
    | Some v => inr v
    | None => py_last vs
    end
  else inl AssertionError.

(** [fetch_by_prob_list(value_list, probability_list, gen)]: the draw is taken
    before the length assertion. *)
Definition fetch_by_prob_list {A} (vs : list A) (ps : list Q) : M St A :=
  rand <- get_random ;; lift (fetch_by_prob_list_at vs ps rand).

End Rng.

(** [fetch_by_prob(value_list, probability) = value_list[int(probability * len(value_list))]] *)
Definition fetch_by_prob {A} (vs : list A) (prob : Q) : exn + A :=
  let x := prob * inject_Z (Z.of_nat (length vs)) in
  (* [int] truncates towards zero *)
  let i := if Qle_bool 0 x then Qfloor x else (- Qfloor (- x))%Z in
  let n := Z.of_nat (length vs) in
  (* a negative index counts from the end, as in Python *)
  let j := if (i <? 0)%Z then (n + i)%Z else i in
  if (j <? 0)%Z then inl IndexError else py_index vs (Z.to_nat j).

(** ** Operators ([core/agent/block.py]) *)

(** *** Configuration values

    The scalars a JSON configuration hands to [Augment] as [exe_prob] and as
    the augmentation's keyword arguments. *)
Inductive pyval :=
| VInt (z : Z) | VFloat (q : Q) | VStr (s : string) | VBool (b : bool) | VNone.

(** The numeric value of an [int], [float] or [bool]. *)
Definition py_num (v : pyval) : option Q :=
  match v with
  | VInt z => Some (inject_Z z)
  | VFloat q => Some q
  | VBool b => Some (if b then 1 else 0)
  | _ => None
  end.

(** [a == b]: numbers by value, strings by content, [None] only with itself. *)
Definition py_eq (a b : pyval) : bool :=
  match py_num a, py_num b with
  | Some x, Some y => Qeq_bool x y
  | Some _, None | None, Some _ => false
  | None, None =>
      match a, b with
      | VStr s, VStr t => String.eqb s t
      | VNone, VNone => true
      | _, _ => false
      end
  end.

(** [a < b] and [a <= b]: a [TypeError] unless both are numbers. *)
Definition py_lt (a b : pyval) : exn + bool :=
  match py_num a, py_num b with
  | Some x, Some y => inr (Qltb x y)
  | _, _ => inl TypeError
  end.
Definition py_le (a b : pyval) : exn + bool :=
  match py_num a, py_num b with
  | Some x, Some y => inr (Qleb x y)
  | _, _ => inl TypeError
  end.

(** [a and b], evaluated left to right with short circuit. *)
Definition py_and (a b : exn + bool) : exn + bool :=
  match a with
  | inr true => b
  | _ => a
  end.

(** [-v] *)
Definition py_neg (v : pyval) : exn + pyval :=
  match v with
  | VInt z => inr (VInt (- z))
  | VFloat q => inr (VFloat (- q))
  | VBool b => inr (VInt (if b then -1 else 0))
  | _ => inl TypeError
  end.

(** [a / b] *)
Definition py_truediv (a b : pyval) : exn + pyval :=
  match py_num a, py_num b with
  | Some x, Some y => if Qeq_bool y 0 then inl ZeroDivisionError else inr (VFloat (x / y))
  | _, _ => inl TypeError
  end.

(** [assert c] *)
Definition py_assert (c : exn + bool) : exn + unit :=
  match c with
  | inl e => inl e
  | inr true => inr tt
  | inr false => inl AssertionError
  end.

(** [lo < x < hi <= 1]: [x] and [hi] evaluated once, left to right. *)
Definition py_chain_lt_lt_le (lo x hi top : pyval) : exn + bool :=
  py_and (py_lt lo x) (py_and (py_lt x hi) (py_le hi top)).

(** The keyword arguments [**kwargs] of a raw node. *)
Definition kwargs := list (string * pyval).

Fixpoint kw_lookup (kw : kwargs) (k : string) : option pyval :=
  match kw with
  | [] => None
  | (k', v) :: kw' => if String.eqb k k' then Some v else kw_lookup kw' k
  end.

(** Binding [**kwargs] to a constructor whose keyword parameters are
    [names]: an unexpected keyword is a [TypeError]. *)
Definition kw_only (kw : kwargs) (names : list string) : bool :=
  forallb (fun p => existsb (String.eqb (fst p)) names) kw.

Definition kw_default (kw : kwargs) (k : string) (d : pyval) : pyval :=
  match kw_lookup kw k with Some v => v | None => d end.

(** *** The augmentation classes ([core/augmentation/augmentations.py])

    [construct_aug name kwargs] is [getattr(augmentations, name)( **kwargs)]:
    the attributes its class's [__eq__] compares, and its [inflation]
    attribute if it has one.  The base classes [SITransform], [MITransform]
    and [IOTransform] come from the package's [transforms] module, taken as
    in [core/transforms.py]: none of them sets [inflation], and the first
    two are abstract.  A missing argument of a constructor is a [TypeError].
    Every other name, the module's own dunder attributes included, is taken
    as unknown ([AttributeError]); no name outside the listed ones yields an
    object with an [inflation]. *)
Definition construct_aug (name : string) (kw : kwargs)
  : exn + (list pyval * option Q) :=
  if String.eqb name "Shift" then
    (* [self.x_shift = x_shift; self.y_shift = -y_shift] *)
    if kw_only kw ["x_shift"; "y_shift"] then
      match kw_lookup kw "x_shift", kw_lookup kw "y_shift" with
      | Some x, Some y =>
          match py_neg y with inl e => inl e | inr ny => inr ([x; ny], None) end
      | _, _ => inl TypeError
      end
    else inl TypeError
  else if String.eqb name "Scale" then
    (* [assert x_scale > 0 and y_scale > 0] *)
    if kw_only kw ["x_scale"; "y_scale"] then
      let x := kw_default kw "x_scale" VNone in
      let y := kw_default kw "y_scale" VNone in
      match py_assert (py_and (py_lt (VInt 0) x) (py_lt (VInt 0) y)) with
      | inl e => inl e
      | inr _ => inr ([x; y], None)
      end
    else inl TypeError
  else if String.eqb name "Rotate" then
    if kw_only kw ["angle"] then
      match kw_lookup kw "angle" with
      | Some a => inr ([a], None)
      | None => inl TypeError
      end
    else inl TypeError
  else if String.eqb name "Resize" then
    (* [assert self.width > 0 and self.height > 0;
        assert 1 / 6 < (self.width / self.height) < 6] *)
    if kw_only kw ["width"; "height"; "preserve_aspect_ratio"] then
      match kw_lookup kw "width", kw_lookup kw "height" with
      | Some w, Some h =>
          let p := kw_default kw "preserve_aspect_ratio" (VBool true) in
          match py_assert (py_and (py_lt (VInt 0) w) (py_lt (VInt 0) h)) with
          | inl e => inl e
          | inr _ =>
              match py_truediv w h with
              | inl e => inl e
              | inr r =>
                  match py_assert (py_and (py_lt (VFloat (1 # 6)) r) (py_lt r (VInt 6))) with
                  | inl e => inl e
                  | inr _ => inr ([w; h; p], None)
                  end
              end
          end
      | _, _ => inl TypeError
      end
    else inl TypeError
  else if String.eqb name "Mosaic" then
    (* [self.mode = mode; self.inflation = 0.25] *)
    if kw_only kw ["mode"] then inr ([kw_default kw "mode" (VStr "resize")], Some (1 # 4))
    else inl TypeError
  else if String.eqb name "Crop" then
    (* [assert 0 < self.x_min < self.x_max <= 1 and 0 < self.y_min < self.y_max <= 1] *)
    if kw_only kw ["x_min"; "y_min"; "x_max"; "y_max"] then
      match kw_lookup kw "x_min", kw_lookup kw "y_min",
            kw_lookup kw "x_max", kw_lookup kw "y_max" with
      | Some x0, Some y0, Some x1, Some y1 =>
          match py_assert (py_and (py_chain_lt_lt_le (VInt 0) x0 x1 (VInt 1))
                                  (py_chain_lt_lt_le (VInt 0) y0 y1 (VInt 1))) with
          | inl e => inl e
          | inr _ => inr ([x0; y0; x1; y1], None)
          end
      | _, _, _, _ => inl TypeError
      end
    else inl TypeError
  else if String.eqb name "MixUp" then
    (* [self.lam = lam; self.inflation = 0.5; assert 0.4 <= self.lam <= 0.6] *)
    if kw_only kw ["lam"] then
      match kw_lookup kw "lam" with
      | Some l =>
          match py_assert (py_and (py_le (VFloat (2 # 5)) l) (py_le l (VFloat (3 # 5)))) with
          | inl e => inl e
          | inr _ => inr ([l], Some (1 # 2))
          end
      | None => inl TypeError
      end
    else inl TypeError
  else if String.eqb name "IOTransform" then
    (* [def __init__(self): pass] *)
    match kw with [] => inr ([], None) | _ => inl TypeError end
  else if String.eqb name "deepcopy" then
    (* [deepcopy(x, memo=None, _nil=[])] on a scalar: [memo.get] fails on a
       [memo] that is not [None] *)
    if kw_only kw ["x"; "memo"; "_nil"] then
      match kw_lookup kw "x" with
      | Some x =>
          match kw_default kw "memo" VNone with
          | VNone => inr ([x], None)
          | _ => inl AttributeError
          end
      | None => inl TypeError
      end
    else inl TypeError
  else if existsb (String.eqb name)
            ["SITransform"; "MITransform"; "time"; "math"; "Optional"; "np"; "cv2"] then
    (* abstract classes, modules and [typing.Optional] cannot be called *)
    inl TypeError
  else inl AttributeError.

(** An augmentation object that has an [inflation]: its class, the
    attributes its [__eq__] compares and the [inflation] (the fan-in). *)
Record Aug := mkAug {
  aug_class : string;
  aug_params : list pyval;
  aug_inflation : Q
}.

Fixpoint pylist_eqb (a b : list pyval) : bool :=
  match a, b with
  | [], [] => true
  | x :: a', y :: b' => py_eq x y && pylist_eqb a' b'
  | _, _ => false
  end.

(** [self == other] for augmentation objects: [isinstance(other, cls)] and
    equal attributes.  [Crop.__eq__] compares [other.x_min_abs], still
    [None], with [self.x_max], a number: two [Crop] objects are never
    equal. *)
Definition aug_eqb (self other : Aug) : bool :=
  String.eqb (aug_class self) (aug_class other)
  && negb (String.eqb (aug_class self) "Crop")
  && pylist_eqb (aug_params other) (aug_params self).

(** Operator ids: the ids of the raw configuration, and the fresh ids given
    by [new_id] during compilation. *)
Inductive bid := Raw (s : string) | New (n : nat).

Definition bid_eqb (a b : bid) : bool :=
  match a, b with
  | Raw s, Raw t => String.eqb s t
  | New n, New m => Nat.eqb n m
  | _, _ => false
  end.

(** The attributes [Input] adds to [Block] ([_Input__share] is the one
    [Input.set] writes; it is not the [_Block__share] read by [share]). *)
Record InputF := mkInputF {
  i_dataset : string;
  i_n_total : Q;
  i_filters : option (list string);
  i_share : option Q;
  i_n_data : option Q;
  i_filter : option string;
  i_uses : nat
}.

Inductive kind := KInput (f : InputF) | KAugment (a : Aug).

(** A [Block] object.  [b_pending] is [_Block__input_image_ids]. *)
Record Block := mkBlock {
  b_id : bid;
  b_prev : list bid;
  b_next : list bid;
  b_shares : list Q;
  b_variations : nat;
  b_share : option Q;
  b_ext : Q;
  b_int : Q;
  b_prev_ext : option (list Q);
  b_pending : list nat;
  b_is_output : bool;
  b_is_input : bool;
  b_kind : kind
}.

Definition is_Input (b : Block) : bool :=
  match b_kind b with KInput _ => true | KAugment _ => false end.

(** [inflation]: 1 for a [Block], the augmentation's for an [Augment]. *)
Definition inflation (b : Block) : Q :=
  match b_kind b with KInput _ => 1 | KAugment a => aug_inflation a end.

Definition uses (b : Block) : nat :=
  match b_kind b with KInput f => i_uses f | KAugment _ => 0 end.

Definition set_id (i : bid) (b : Block) : Block :=
  mkBlock i (b_prev b) (b_next b) (b_shares b) (b_variations b) (b_share b)
    (b_ext b) (b_int b) (b_prev_ext b) (b_pending b) (b_is_output b) (b_is_input b) (b_kind b).
Definition set_prev (p : list bid) (b : Block) : Block :=
  mkBlock (b_id b) p (b_next b) (b_shares b) (b_variations b) (b_share b)
    (b_ext b) (b_int b) (b_prev_ext b) (b_pending b) (b_is_output b) (b_is_input b) (b_kind b).
Definition set_next (n : list bid) (b : Block) : Block :=
  mkBlock (b_id b) (b_prev b) n (b_shares b) (b_variations b) (b_share b)
    (b_ext b) (b_int b) (b_prev_ext b) (b_pending b) (b_is_output b) (b_is_input b) (b_kind b).
Definition set_share (s : option Q) (b : Block) : Block :=
  mkBlock (b_id b) (b_prev b) (b_next b) (b_shares b) (b_variations b) s
    (b_ext b) (b_int b) (b_prev_ext b) (b_pending b) (b_is_output b) (b_is_input b) (b_kind b).
Definition set_ext (e : Q) (b : Block) : Block :=
  mkBlock (b_id b) (b_prev b) (b_next b) (b_shares b) (b_variations b) (b_share b)
    e (b_int b) (b_prev_ext b) (b_pending b) (b_is_output b) (b_is_input b) (b_kind b).
Definition set_int (p : Q) (b : Block) : Block :=
  mkBlock (b_id b) (b_prev b) (b_next b) (b_shares b) (b_variations b) (b_share b)
    (b_ext b) p (b_prev_ext b) (b_pending b) (b_is_output b) (b_is_input b) (b_kind b).
Definition set_prev_ext (l : list Q) (b : Block) : Block :=
  mkBlock (b_id b) (b_prev b) (b_next b) (b_shares b) (b_variations b) (b_share b)
    (b_ext b) (b_int b) (Some l) (b_pending b) (b_is_output b) (b_is_input b) (b_kind b).
Definition set_pending (l : list nat) (b : Block) : Block :=
  mkBlock (b_id b) (b_prev b) (b_next b) (b_shares b) (b_variations b) (b_share b)
    (b_ext b) (b_int b) (b_prev_ext b) l (b_is_output b) (b_is_input b) (b_kind b).
Definition set_kind (k : kind) (b : Block) : Block :=
  mkBlock (b_id b) (b_prev b) (b_next b) (b_shares b) (b_variations b) (b_share b)
    (b_ext b) (b_int b) (b_prev_ext b) (b_pending b) (b_is_output b) (b_is_input b) k.

Definition set_uses (n : nat) (b : Block) : Block :=
  match b_kind b with
  | KInput f => set_kind (KInput (mkInputF (i_dataset f) (i_n_total f) (i_filters f)
                   (i_share f) (i_n_data f) (i_filter f) n)) b
  | KAugment _ => b
  end.

(** [Block._normalize_shares]:
    [for share in self.__shares: share *= (1 / sum(self.__shares))].
    Each iteration rebinds the loop variable only; the list is returned as
    it is.  [1 / sum(...)] raises on a zero sum. *)
Definition normalize_shares (shares : list Q) : exn + list Q :=
  fold_left
    (fun acc share =>
       match acc with
       | inl e => inl e
       | inr l =>
           match pydiv 1 (Qsum shares) with
           | inl e => inl e
           | inr k => let _share := share * k in inr l
           end
       end)
    shares (inr shares).

(** [Block.__init__] *)
Definition init_block (i : bid) (prev next : list bid) (shares : list Q) (k : kind)
  : exn + Block :=
  match normalize_shares shares with
  | inl e => inl e
  | inr sh =>
      inr (mkBlock i prev next sh (length sh) None 1 1 None []
             (match next with [] => true | _ => false end)
             (match prev with [] => true | _ => false end) k)
  end.

(** [Input.__init__(id_, next_, shares, dataset, n_total_data, filters)] *)
Definition init_input (i : bid) (next : list bid) (shares : list Q)
  (dataset : string) (n_total : Q) (filters : option (list string)) : exn + Block :=
  match init_block i [] next shares
          (KInput (mkInputF dataset n_total filters None None None 1)) with
  | inl e => inl e
  | inr b =>
      match filters with
      | Some ((_ :: _) as fs) =>
          if Nat.eqb (length fs) (b_variations b) then inr b else inl AssertionError
      | _ => inr b
      end
  end.

(** The [int_exe_prob] setter:
    [assert isinstance(value, float) or value == 1; assert 0 <= value <= 1]. *)
Definition set_int_exe_prob (v : pyval) : exn + Q :=
  match v with
  | VFloat q => if Qleb 0 q && Qleb q 1 then inr q else inl AssertionError
  | _ => if py_eq v (VInt 1) then inr 1 else inl AssertionError
  end.

(** [Augment.__init__(id_, prev, next_, shares, class_name, exe_prob, **kwargs)]:
    [super().__init__] (its share normalisation can raise), the
    [int_exe_prob] setter, the augmentation object, and
    [self.__n_inputs = int(1 / self.inflation)], which reads the object's
    [inflation].  The block is the one [super().__init__] builds, carrying the
    augmentation object and the execution probability. *)
Definition init_augment (i : bid) (prev next : list bid) (shares : list Q)
  (class_name : string) (exe_prob : pyval) (kw : kwargs) : exn + Block :=
  match normalize_shares shares with
  | inl e => inl e
  | inr _ =>
      match set_int_exe_prob exe_prob with
      | inl e => inl e
      | inr q =>
          match construct_aug class_name kw with
          | inl e => inl e
          | inr (_, None) => inl AttributeError
          | inr (ps, Some infl) =>
              match pydiv 1 infl with
              | inl e => inl e
              | inr _ =>
                  match init_block i prev next shares
                          (KAugment (mkAug class_name ps infl)) with
                  | inl e => inl e
                  | inr b => inr (set_int q b)
                  end
              end
          end
      end
  end.

(** A raw node of the configuration. *)
Inductive params :=
| PInput (dataset : string) (n_total : Q) (filters : option (list string))
| PAugment (class_name : string) (exe_prob : pyval) (kw : kwargs).

Record RawNode := mkRaw {
  r_id : string;
  r_prev : list string;
  r_next : list string;
  r_shares : list Q;
  r_params : params
}.

(** [Blocks._dict_to_block(raw).update()]: a plain [Block] first, whose
    constructor only normalises the shares (and can raise), then the [Input]
    or [Augment] on the same ids and shares. *)
Definition dict_to_block_update (r : RawNode) : exn + Block :=
  let i := Raw (r_id r) in
  let prev := map Raw (r_prev r) in
  let next := map Raw (r_next r) in
  match normalize_shares (r_shares r) with
  | inl e => inl e
  | inr sh =>
      match r_params r with
      | PInput ds n fs => init_input i next sh ds n fs
      | PAugment cls p kw => init_augment i prev next sh cls p kw
      end
  end.

(** [Block.set(index)] and its override [Input.set(index)]. *)
Definition set_block (b : Block) (index : nat) : exn + Block :=
  if negb (Nat.ltb index (b_variations b)) then inl AssertionError else
  match b_kind b with
  | KAugment _ =>
      let next_r :=
        if b_is_output b then inr (b_next b)
        else match py_index (b_next b) index with
             | inl e => inl e | inr n => inr [n] end in
      match next_r, py_index (b_shares b) index with
      | inr nx, inr sh =>
          (* [self.mult_exe_prob(self.__share)] *)
          inr (set_ext (b_ext b * sh) (set_share (Some sh) (set_next nx b)))
      | inl e, _ | _, inl e => inl e
      end
  | KInput f =>
      match py_index (b_next b) index, py_index (b_shares b) index with
      | inr n, inr sh =>
          let filter :=
            match i_filters f with
            | Some ((_ :: _) as fs) => match py_index fs index with
                                     | inr x => inr (Some x) | inl e => inl e end
            | _ => inr (i_filter f)
            end in
          match filter with
          | inl e => inl e
          | inr fl =>
              inr (set_kind (KInput (mkInputF (i_dataset f) (i_n_total f) (i_filters f)
                                       (Some sh) (Some (i_n_total f * sh)) fl (i_uses f)))
                     (set_next [n] b))
          end
      | inl e, _ | _, inl e => inl e
      end
  end.

(** ** The compiler [Blocks] *)

(** The state of a [Blocks] object: its generator and [self.__blocks]. *)
Record BS := mkBS { bs_rng : nat; bs_blocks : list Block }.

#[export] Instance BS_rng : HasRng BS :=
  { rng_pos := bs_rng; rng_set := fun n s => mkBS n (bs_blocks s) }.

Definition get_blocks : M BS (list Block) := s <- get ;; ret (bs_blocks s).
Definition put_blocks (l : list Block) : M BS unit :=
  s <- get ;; put (mkBS (bs_rng s) l).

(** [Blocks._get_block_by_id]: the first block with that id, or [None]. *)
Fixpoint get_block_by_id (bs : list Block) (i : bid) : option Block :=
  match bs with
  | [] => None
  | b :: bs' => if bid_eqb (b_id b) i then Some b else get_block_by_id bs' i
  end.

(** Writing back a mutated block object (ids in [self.__blocks] are fresh,
    hence the object is the one with its id). *)
Fixpoint replace_block (bs : list Block) (nb : Block) : list Block :=
  match bs with
  | [] => []
  | b :: bs' => if bid_eqb (b_id b) (b_id nb) then nb :: bs' else b :: replace_block bs' nb
  end.

(** [existing == new]: [Input.__eq__] is always [False]; [Augment.__eq__]
    compares the augmentation, [int_exe_prob] and [share]. *)
Definition block_eqb (existing new : Block) : bool :=
  match b_kind existing, b_kind new with
  | KAugment a1, KAugment a2 =>
      aug_eqb a2 a1 && Qeq_bool (b_int new) (b_int existing)
      && match b_share new, b_share existing with
         | None, None => true
         | Some x, Some y => Qeq_bool x y
         | _, _ => false
         end
  | _, _ => false
  end.

(** [Blocks._is_unique] / [Blocks._get_duplicate_index] *)
Fixpoint dup_index (bs : list Block) (nb : Block) : option nat :=
  match bs with
  | [] => None
  | b :: bs' => if block_eqb b nb then Some 0%nat
               else option_map S (dup_index bs' nb)
  end.

Fixpoint update_nth {A} (l : list A) (k : nat) (x : A) : list A :=
  match l, k with
  | [], _ => []
  | _ :: l', 0%nat => x :: l'
  | y :: l', S k' => y :: update_nth l' k' x
  end.

Fixpoint inb (i : bid) (l : list bid) : bool :=
  match l with [] => false | j :: l' => bid_eqb j i || inb i l' end.

(** Python's recursion limit. *)
Definition recursion_limit : nat := 1000.

(** [Blocks._build_from_block(raw_block, raw_blocks, share_index, prev_block_id)]. *)
Fixpoint build_from_block (fuel : nat) (raw : Block) (raw_blocks : list Block)
  (share_index : nat) (prev_block_id : option bid) {struct fuel} : M BS unit :=
  match fuel with
  | O => raise RecursionError
  | S f =>
    nid <- new_id ;;
    let built := set_id (New nid) raw in
    (if Nat.ltb (S share_index) (length (b_shares built))
     then build_from_block f raw raw_blocks (S share_index) prev_block_id
     else ret tt) ;;;
    built <- lift (set_block built share_index) ;;
    bs <- get_blocks ;;
    match dup_index bs built with
    | Some k =>
        (* [built_block = self.__blocks[block_index]] *)
        existing <- lift (py_index bs k) ;;
        (match prev_block_id with
         | None => ret tt
         | Some p =>
             bs <- get_blocks ;;
             match get_block_by_id bs p with
             | None => raise AttributeError
             | Some pb =>
                 put_blocks (replace_block bs (set_next [b_id existing] pb)) ;;;
                 bs <- get_blocks ;;
                 cur <- lift (py_index bs k) ;;
                 if inb p (b_prev cur) then ret tt
                 else put_blocks (update_nth bs k (set_prev (b_prev cur ++ [p]) cur))
             end
         end) ;;;
        bs <- get_blocks ;;
        cur <- lift (py_index bs k) ;;
        (match b_next cur with
         | [] => ret tt
         | n :: _ =>
             match get_block_by_id raw_blocks n with
             | None => ret tt
             | Some nr => build_from_block f nr raw_blocks 0 (Some (b_id cur))
             end
         end)
    | None =>
        built <-
          (match prev_block_id with
           | None => ret built
           | Some p =>
               bs <- get_blocks ;;
               match get_block_by_id bs p with
               | None => raise AttributeError
               | Some pb =>
                   put_blocks (replace_block bs (set_next [b_id built] pb)) ;;;
                   ret (set_prev [p] built)
               end
           end) ;;
        bs <- get_blocks ;;
        put_blocks (bs ++ [built]) ;;;
        (match b_next built with
         | [] => ret tt
         | n :: _ =>
             match get_block_by_id raw_blocks n with
             | None => ret tt
             | Some nr => build_from_block f nr raw_blocks 0 (Some (b_id built))
             end
         end)
    end
  end.

Fixpoint mapM {S A B} (f : A -> M S B) (l : list A) : M S (list B) :=
  match l with
  | [] => ret []
  | x :: l' => y <- f x ;; ys <- mapM f l' ;; ret (y :: ys)
  end.

Definition iterM {S A} (f : A -> M S unit) (l : list A) : M S unit :=
  _ <- mapM f l ;; ret tt.

(** [Blocks._calc_ext_exe_probs(block)]; the block object is read again
    after each mutation. *)
Fixpoint calc_ext_exe_probs (fuel : nat) (i : bid) {struct fuel} : M BS unit :=
  match fuel with
  | O => raise RecursionError
  | S f =>
    bs <- get_blocks ;;
    match get_block_by_id bs i with
    | None => raise AttributeError
    | Some b =>
        if b_is_input b then ret tt else
        (* [prev_blocks = [self._get_block_by_id(...) for id_ in block.prev]] *)
        (if forallb (fun p => match get_block_by_id bs p with Some _ => true | None => false end)
                    (b_prev b)
         then ret tt else raise AttributeError) ;;;
        iterM (calc_ext_exe_probs f) (b_prev b) ;;;
        bs <- get_blocks ;;
        let probs := map (fun p => match get_block_by_id bs p with
                                   | Some pb => b_ext pb | None => 0 end) (b_prev b) in
        match get_block_by_id bs i with
        | None => raise AttributeError
        | Some b =>
            let v := Qsum probs * b_ext b in
            (* the [ext_exe_prob] setter: [assert 0 <= value <= 1] *)
            assert (Qleb 0 v && Qleb v 1) ;;;
            put_blocks (replace_block bs (set_ext v (set_prev_ext probs b)))
        end
    end
  end.

(** [Blocks._get_output_blocks]: [ValueError] when there is none. *)
Definition get_output_blocks (bs : list Block) : exn + list Block :=
  match filter b_is_output bs with
  | [] => inl ValueError
  | l => inr l
  end.

Definition get_input_blocks (bs : list Block) : list Block := filter is_Input bs.
Definition get_augment_blocks (bs : list Block) : list Block :=
  filter (fun b => negb (is_Input b)) bs.

(** [Blocks._set_ipt_blocks_exe_prob]: each [Input] object (the same objects
    as in [raw_blocks]) has its [ext_exe_prob] multiplied by its share of the
    total data. *)
Definition set_ipt_blocks_exe_prob (raw_blocks : list Block) : exn + list Block :=
  let n_total_data := Qsum (map (fun b => match b_kind b with
                                          | KInput f => i_n_total f | _ => 0 end)
                                (get_input_blocks raw_blocks)) in
  fold_right
    (fun b acc =>
       match acc with
       | inl e => inl e
       | inr l =>
           match b_kind b with
           | KInput f =>
               match pydiv (i_n_total f) n_total_data with
               | inl e => inl e
               | inr w => inr (set_ext (b_ext b * w) b :: l)
               end
           | KAugment _ => inr (b :: l)
           end
       end) (inr []) raw_blocks.

Fixpoint mapE {A B} (f : A -> exn + B) (l : list A) : exn + list B :=
  match l with
  | [] => inr []
  | x :: l' => match f x with
               | inl e => inl e
               | inr y => match mapE f l' with inl e => inl e | inr ys => inr (y :: ys) end
               end
  end.

(** [Blocks.build(raw_block_list)] *)
Definition build (raw_list : list RawNode) : M BS unit :=
  raw_blocks <- lift (mapE dict_to_block_update raw_list) ;;
  raw_blocks <- lift (set_ipt_blocks_exe_prob raw_blocks) ;;
  iterM (fun b => build_from_block recursion_limit b raw_blocks 0 None)
        (get_input_blocks raw_blocks) ;;;
  bs <- get_blocks ;;
  outs <- lift (get_output_blocks bs) ;;
  iterM (fun b => calc_ext_exe_probs recursion_limit (b_id b)) outs.

(** A fresh [Blocks(gen)] compiling [raw_list]. *)
Definition compile (rng : nat) (raw_list : list RawNode) : exn + list Block :=
  match build raw_list (mkBS rng []) with
  | inl e => inl e
  | inr (_, s) => inr (bs_blocks s)
  end.

(** Python's [round] on a float: to the nearest integer, halves to even. *)
Definition py_round (x : Q) : Z :=
  let fl := Qfloor x in
  let frac := x - inject_Z fl in
  if Qltb frac (1 # 2) then fl
  else if Qltb (1 # 2) frac then (fl + 1)%Z
  else if Z.even fl then fl else (fl + 1)%Z.

(** ** The path sampler [Blocks.fetch_path] / [Blocks.root] *)

Section Sampler.
Variable draws : nat -> Q.

(** [Block.reset] clears [_Block__input_image_ids]; [Input.reset] overrides
    it, clearing [_Input__input_image_ids] (never read) and setting
    [uses] to 0. *)
Definition reset_block (b : Block) : Block :=
  match b_kind b with
  | KInput _ => set_uses 0 b
  | KAugment _ => set_pending [] b
  end.

(** [Blocks.reset] *)
Definition reset_blocks : M BS unit :=
  bs <- get_blocks ;; put_blocks (map reset_block bs).

(** [Input.add_use] on the compiled object with id [i]. *)
Definition add_use (i : bid) : M BS unit :=
  bs <- get_blocks ;;
  match get_block_by_id bs i with
  | Some b => match b_kind b with
              | KInput f => put_blocks (replace_block bs (set_uses (S (i_uses f)) b))
              | KAugment _ => raise AttributeError
              end
  | None => raise KeyError
  end.

(** The weights of [root]:
    [[block.prev_ext_exe_probs[index] / sum(block.prev_ext_exe_probs) for ...]];
    [prev_ext_exe_probs] is [None] before compilation set it. *)
Definition prev_weights (b : Block) : exn + list Q :=
  match b_prev_ext b with
  | None => inl AttributeError
  | Some ps => mapE (fun p => pydiv p (Qsum ps)) ps
  end.

Fixpoint mem_bid (i : bid) (l : list bid) : bool :=
  match l with [] => false | j :: l' => bid_eqb i j || mem_bid i l' end.

(** [Blocks.root(block)]: the ids of the dict it returns, in insertion
    order; the dict's values are the compiled objects themselves. *)
Fixpoint root (fuel : nat) (i : bid) {struct fuel} : M BS (list bid) :=
  match fuel with
  | O => raise RecursionError
  | S f =>
    bs <- get_blocks ;;
    match get_block_by_id bs i with
    | None => raise AttributeError
    | Some b =>
      if b_is_input b then ret [i] else
      if Qltb (inflation b) 1 then
        n <- lift (pydiv 1 (inflation b)) ;;
        let rounds := Z.to_nat (py_round n) in
        (fix variants (k : nat) (acc : list bid) : M BS (list bid) :=
           match k with
           | O => ret acc
           | S k' =>
               ws <- lift (prev_weights b) ;;
               chosen <- fetch_by_prob_list draws (b_prev b) ws ;;
               sub <- root f chosen ;;
               acc <- (fix add (l : list bid) (acc : list bid) : M BS (list bid) :=
                         match l with
                         | [] => ret acc
                         | v :: l' =>
                             let acc := if mem_bid v acc then acc else acc ++ [v] in
                             bs <- get_blocks ;;
                             (match get_block_by_id bs v with
                              | Some vb => if b_is_input vb then add_use v else ret tt
                              | None => raise AttributeError
                              end) ;;;
                             add l' acc
                         end) sub acc ;;
               variants k' acc
           end) rounds [i]
      else
        ws <- lift (prev_weights b) ;;
        chosen <- fetch_by_prob_list draws (b_prev b) ws ;;
        sub <- root f chosen ;;
        ret (fold_left (fun acc v => if mem_bid v acc then acc else acc ++ [v]) sub [i])
    end
  end.

(** An execution path: the [inputs] and [augmentations] dicts. *)
Record Path := mkPath { p_inputs : list Block; p_augs : list Block }.

Fixpoint lookup_blocks (bs : list Block) (l : list bid) : list Block :=
  match l with
  | [] => []
  | i :: l' => match get_block_by_id bs i with
               | Some b => b :: lookup_blocks bs l'
               | None => lookup_blocks bs l'
               end
  end.

(** [Blocks.fetch_path()] *)
Definition fetch_path : M BS Path :=
  reset_blocks ;;;
  bs <- get_blocks ;;
  outs <- lift (get_output_blocks bs) ;;
  block <- fetch_by_prob_list draws outs (map b_ext outs) ;;
  ids <- root recursion_limit (b_id block) ;;
  bs <- get_blocks ;;
  let path_blocks := lookup_blocks bs ids in
  ret (mkPath (get_input_blocks path_blocks) (get_augment_blocks path_blocks)).

End Sampler.

(** ** Datasets ([core/data/data.py]) and the scheduler ([core/agent/executor.py]) *)

Section Executor.
Variable draws : nat -> Q.
(** An (image, annotations) pair. *)
Variable D : Type.

(** The argument of [augmentation.apply(images, annotations)]: one pair
    for a block with [inflation >= 1], the ordered buffered pairs for a
    confluent block. *)
Inductive Arg := One (d : D) | Many (ds : list D).
Variable apply : Aug -> Arg -> D.
(** [(transpose_image(image), annotations)] at the end of [Executor.fetch]. *)
Variable transpose_output : D -> exn + D.

(** A [Dataset]: its id, the [.data] of its data packages, the background
    percentage, and the index lists computed by its filters. *)
Record Dataset := mkDataset {
  ds_id : string;
  ds_packages : list D;
  ds_background : option Q;
  ds_bg_indexes : list nat;
  ds_filter_indexes : list (string * list nat)
}.

Fixpoint assoc_str {A} (l : list (string * A)) (k : string) : option A :=
  match l with
  | [] => None
  | (k', v) :: l' => if String.eqb k k' then Some v else assoc_str l' k
  end.

(** The state of an [Executor]: the shared generator, the compiled blocks,
    [self.__data] and [self.__path]. *)
Inductive key := KOut | KData (n : nat).

Definition key_eqb (a b : key) : bool :=
  match a, b with
  | KOut, KOut => true
  | KData n, KData m => Nat.eqb n m
  | _, _ => false
  end.

Record Ex := mkEx {
  ex_rng : nat;
  ex_blocks : list Block;
  ex_data : list (key * D);
  ex_path : option Path
}.

#[export] Instance Ex_rng : HasRng Ex :=
  { rng_pos := ex_rng; rng_set := fun n s => mkEx n (ex_blocks s) (ex_data s) (ex_path s) }.

(** [Dataset.fetch(filter_)] on the shared generator; the list form of
    [filter_] is not modelled. *)
Definition dataset_fetch (ds : Dataset) (filter_ : option string) : M Ex D :=
  rand <- get_random draws ;;
  bg <- (match ds_background ds with
         | None => ret false
         | Some p => r <- get_random draws ;; ret (Qltb r p)
         end) ;;
  if bg then
    i <- lift (fetch_by_prob (ds_bg_indexes ds) rand) ;;
    lift (py_index (ds_packages ds) i)
  else match filter_ with
  | None => lift (fetch_by_prob (ds_packages ds) rand)
  | Some f =>
      match assoc_str (ds_filter_indexes ds) f with
      | None => raise KeyError
      | Some idx => i <- lift (fetch_by_prob idx rand) ;; lift (py_index (ds_packages ds) i)
      end
  end.

(** [self.__datasets = {dataset.id: dataset for dataset in datasets}]: the
    last dataset with an id wins. *)
Definition find_dataset (dss : list Dataset) (i : string) : option Dataset :=
  find (fun d => String.eqb (ds_id d) i) (rev dss).

(** [self.__data] as a dict *)
Fixpoint dlookup (l : list (key * D)) (k : key) : option D :=
  match l with
  | [] => None
  | (k', v) :: l' => if key_eqb k k' then Some v else dlookup l' k
  end.
Fixpoint dset (l : list (key * D)) (k : key) (v : D) : list (key * D) :=
  match l with
  | [] => [(k, v)]
  | (k', v') :: l' => if key_eqb k k' then (k, v) :: l' else (k', v') :: dset l' k v
  end.
Fixpoint ddel (l : list (key * D)) (k : key) : option (list (key * D)) :=
  match l with
  | [] => None
  | (k', v') :: l' =>
      if key_eqb k k' then Some l'
      else option_map (cons (k', v')) (ddel l' k)
  end.

Definition data_get (k : key) : M Ex D :=
  fun s => match dlookup (ex_data s) k with
           | Some v => inr (v, s)
           | None => inl KeyError
           end.
Definition data_set (k : key) (v : D) : M Ex unit :=
  fun s => inr (tt, mkEx (ex_rng s) (ex_blocks s) (dset (ex_data s) k v) (ex_path s)).
Definition data_del (k : key) : M Ex unit :=
  fun s => match ddel (ex_data s) k with
           | Some l => inr (tt, mkEx (ex_rng s) (ex_blocks s) l (ex_path s))
           | None => inl KeyError
           end.

Definition get_path : M Ex Path :=
  fun s => match ex_path s with
           | Some p => inr (p, s)
           | None => inl AttributeError  (* [None[...]] *)
           end.

(** [self.__path[c.PATH_AUGMENTATIONS][block.id] = block] *)
Fixpoint dict_put (l : list Block) (b : Block) : list Block :=
  match l with
  | [] => [b]
  | b' :: l' => if bid_eqb (b_id b') (b_id b) then b :: l' else b' :: dict_put l' b
  end.

Definition put_aug (b : Block) : M Ex unit :=
  p <- get_path ;;
  fun s => inr (tt, mkEx (ex_rng s) (ex_blocks s) (ex_data s)
                        (Some (mkPath (p_inputs p) (dict_put (p_augs p) b)))).

(** [Block.execute] / [Augment.execute] *)
Definition execute (b : Block) (a : Arg) : D :=
  match b_kind b, a with
  | KAugment g, _ => apply g a
  | KInput _, One d => d
  (* unreachable: [_exec_inflationary_block] asserts an [Augment] *)
  | KInput _, Many ds => apply (mkAug "Block" [] 1) (Many ds)
  end.

(** [Executor._exec_inflationary_block]; returns the mutated block. *)
Definition exec_inflationary_block (b : Block) (data_id new_data_id : nat) : M Ex Block :=
  assert (negb (is_Input b)) ;;;
  let b := set_pending (b_pending b ++ [data_id]) b in
  b <- (if Z.eqb (Z.of_nat (length (b_pending b))) (py_round (1 / inflation b))
        then
          data_list <- mapM (fun i => data_get (KData i)) (b_pending b) ;;
          data_set (KData new_data_id) (execute b (Many data_list)) ;;;
          iterM (fun i => data_del (KData i)) (b_pending b) ;;;
          ret (set_pending [] b)
        else ret b) ;;
  put_aug b ;;;
  ret b.

(** [Executor._exec_augment_block]; returns the (possibly mutated) block. *)
Definition exec_augment_block (b : Block) (data_id new_data_id : nat) : M Ex Block :=
  fire <- is_executed draws (b_int b) ;;
  if fire then
    if Qltb (inflation b) 1 then exec_inflationary_block b data_id new_data_id
    else
      d <- data_get (KData data_id) ;;
      data_set (KData new_data_id) (execute b (One d)) ;;;
      data_del (KData data_id) ;;;
      ret b
  else
    d <- data_get (KData data_id) ;;
    data_set (KData new_data_id) d ;;;
    data_del (KData data_id) ;;;
    ret b.

(** [Executor._exec_input_block] *)
Definition exec_input_block (b : Block) (data_id new_data_id : nat) : M Ex unit :=
  assert (is_Input b) ;;;
  d <- data_get (KData data_id) ;;
  data_set (KData new_data_id) d ;;;
  data_del (KData data_id).

(** [Executor._propagate(block, data_id)] *)
Fixpoint propagate (fuel : nat) (b : Block) (data_id : nat) {struct fuel} : M Ex unit :=
  match fuel with
  | O => raise RecursionError
  | S f =>
    new_data_id <- new_id ;;
    b <- (if b_is_input b then exec_input_block b data_id new_data_id ;;; ret b
          else exec_augment_block b data_id new_data_id) ;;
    if negb (b_is_input b) && Qltb (inflation b) 1
       && negb (Nat.eqb (length (b_pending b)) 0) then ret tt
    else if b_is_output b then
      d <- data_get (KData new_data_id) ;; data_set KOut d
    else
      p <- get_path ;;
      n <- lift (py_index (b_next b) 0) ;;
      match get_block_by_id (p_augs p) n with
      | None => raise KeyError
      | Some nb => propagate f nb new_data_id
      end
  end.

Variable datasets : list Dataset.

(** [Executor._execute_path]: [Dataset.fetch()] is called without a filter. *)
Definition execute_path : M Ex D :=
  p <- get_path ;;
  iterM (fun ib =>
           (fix seed (k : nat) : M Ex unit :=
              match k with
              | O => ret tt
              | S k' =>
                  data_id <- new_id ;;
                  match find_dataset datasets (match b_kind ib with
                                               | KInput f => i_dataset f
                                               | KAugment _ => EmptyString end) with
                  | None => raise KeyError
                  | Some ds =>
                      d <- dataset_fetch ds None ;;
                      data_set (KData data_id) d ;;;
                      propagate recursion_limit ib data_id ;;;
                      seed k'
                  end
              end) (uses ib))
        (p_inputs p) ;;;
  data_get KOut.

(** [self.__blocks.fetch_path()] run on the executor's state. *)
Definition lift_bs {A} (m : M BS A) : M Ex A :=
  fun s => match m (mkBS (ex_rng s) (ex_blocks s)) with
           | inl e => inl e
           | inr (a, t) => inr (a, mkEx (bs_rng t) (bs_blocks t) (ex_data s) (ex_path s))
           end.

(** [Executor.fetch()] *)
Definition fetch : M Ex D :=
  (* [_reset] *)
  (fun s => inr (tt, mkEx (ex_rng s) (ex_blocks s) [] None)) ;;;
  p <- lift_bs (fetch_path draws) ;;
  (fun s => inr (tt, mkEx (ex_rng s) (ex_blocks s) (ex_data s) (Some p))) ;;;
  d <- execute_path ;;
  lift (transpose_output d).

(** [Executor(raw_block_list, datasets, gen)] with the generator at [rng]. *)
Definition executor_init (rng : nat) (raw_list : list RawNode) : exn + Ex :=
  match build raw_list (mkBS rng []) with
  | inl e => inl e
  | inr (_, s) => inr (mkEx (bs_rng s) (bs_blocks s) [] None)
  end.

End Executor.

(** * Properties *)

(** ** Building an [Augment] *)

Lemma normalize_shares_eq (sh : list Q) :
  normalize_shares sh =
  match sh with
  | [] => inr []
  | _ => if Qeq_bool (Qsum sh) 0 then inl ZeroDivisionError else inr sh
  end.
Proof.
  unfold normalize_shares, pydiv.
  assert (Hgen : forall (l : list Q) (acc : exn + list Q),
    fold_left (fun (acc : exn + list Q) share => match acc with
       | inl e => inl e
       | inr l0 => match (if Qeq_bool (Qsum sh) 0 then inl ZeroDivisionError else inr (1 / Qsum sh)) with
                   | inl e => inl e
                   | inr k => let _share := share * k in inr l0 end end) l acc =
    match l with
    | [] => acc
    | _ => match acc with
           | inl e => inl e
           | inr a => if Qeq_bool (Qsum sh) 0 then inl ZeroDivisionError else inr a
           end
    end).
  { induction l as [|x l IH]; intros acc; [reflexivity|]. simpl. rewrite IH.
    destruct l; destruct acc; try reflexivity; destruct (Qeq_bool (Qsum sh) 0); reflexivity. }
  rewrite Hgen. destruct sh; reflexivity.
Qed.


Lemma normalize_shares_ok (sh sh' : list Q) : normalize_shares sh = inr sh' -> sh' = sh.
Proof.
  rewrite normalize_shares_eq. destruct sh as [|x l]; [congruence|].
  destruct Qeq_bool; congruence.
Qed.

Ltac split_construct E :=
  repeat match type of E with
         | context [String.eqb ?a ?b] => destruct (String.eqb a b) eqn:?
         | context [kw_only ?kw ?ns] => destruct (kw_only kw ns) eqn:?
         | context [existsb ?f ?l] => destruct (existsb f l) eqn:?
         | context [match ?x with _ => _ end] => destruct x eqn:?
         end; try discriminate.

(** Only [Mosaic] (0.25) and [MixUp] (0.5, with [0.4 <= lam <= 0.6]) build
    an object that has an [inflation]. *)
Lemma construct_aug_inflation (cls : string) (kw : kwargs) (ps : list pyval) (f : Q) :
  construct_aug cls kw = inr (ps, Some f) ->
  (cls = "Mosaic" /\ f = 1 # 4 /\ exists m, ps = [m]) \/
  (cls = "MixUp" /\ f = 1 # 2 /\ exists l, ps = [l] /\
     py_le (VFloat (2 # 5)) l = inr true /\ py_le l (VFloat (3 # 5)) = inr true).
Proof.
  unfold construct_aug, py_assert, py_and. intros E. split_construct E.
  all: injection E as <- <-;
    repeat match goal with H : (_ =? _) = true |- _ => apply String.eqb_eq in H end;
    subst.
  - left. repeat split. eauto.
  - right. split; [reflexivity|]. split; [reflexivity|].
    match goal with H : kw_lookup kw "lam" = Some ?l |- _ => exists l end.
    split; [reflexivity|].
    match goal with H : match match py_le ?a ?l with _ => _ end with _ => _ end = inr _ |- _ =>
      destruct (py_le a l) as [|[|]]; destruct (py_le l (VFloat (3 # 5))) as [|[|]];
      try discriminate; auto end.
Qed.

(** A built [Augment] carries the object its class builds, with an
    [inflation], and the value the [int_exe_prob] setter accepted. *)
Lemma init_augment_inv (i : bid) (prev next : list bid) (sh : list Q) (cls : string)
  (p : pyval) (kw : kwargs) (b : Block) :
  init_augment i prev next sh cls p kw = inr b ->
  exists ps infl q,
    construct_aug cls kw = inr (ps, Some infl) /\ set_int_exe_prob p = inr q /\
    b = set_int q (mkBlock i prev next sh (length sh) None 1 1 None []
                     (match next with [] => true | _ => false end)
                     (match prev with [] => true | _ => false end)
                     (KAugment (mkAug cls ps infl))).
Proof.
  unfold init_augment. intros E.
  destruct (normalize_shares sh) as [|sh'] eqn:En; [discriminate|].
  destruct (set_int_exe_prob p) as [|q] eqn:Eq; [discriminate|].
  destruct (construct_aug cls kw) as [|[ps [infl|]]] eqn:Ec; try discriminate.
  destruct (pydiv 1 infl); [discriminate|].
  unfold init_block in E. rewrite En in E. apply normalize_shares_ok in En. subst sh'.
  injection E as <-. exists ps, infl, q. auto.
Qed.

(** The setter accepts a [float] in [0, 1] or a value equal to 1. *)
Lemma set_int_exe_prob_inv (p : pyval) (q : Q) :
  set_int_exe_prob p = inr q ->
  (p = VFloat q /\ 0 <= q <= 1) \/ (py_eq p (VInt 1) = true /\ q = 1).
Proof.
  unfold set_int_exe_prob. intros E. destruct p as [z|r|t|c|];
    try (destruct py_eq eqn:Ee; [injection E as <-; right; auto|discriminate]).
  destruct (Qleb 0 r) eqn:E0, (Qleb r 1) eqn:E1; try discriminate.
  injection E as <-. left. unfold Qleb in *. apply Qle_bool_iff in E0, E1. auto.
Qed.


(** ** Weighted selection *)

Lemma prob_scan_in {A} (vs : list A) (ps : list Q) (acc rand : Q) (v : A) :
  prob_scan vs ps acc rand = Some v -> In v vs.
Proof.
  revert ps acc. induction vs as [|x vs IH]; intros ps acc H; [discriminate|].
  destruct ps as [|p ps]; [discriminate|]. simpl in H.
  destruct (Qltb rand (acc + p)).
  - injection H as <-. now left.
  - right. eapply IH. exact H.
Qed.

Lemma py_last_in {A} (vs : list A) :
  vs <> [] -> exists v, py_last vs = inr v /\ In v vs.
Proof.
  intros Hne. unfold py_last.
  destruct (rev vs) as [|x r] eqn:E.
  - exfalso. apply Hne. rewrite <- (rev_involutive vs), E. reflexivity.
  - exists x. split; [reflexivity|]. apply in_rev. rewrite E. now left.
Qed.

(** When every cumulative sum of the probabilities stays at or below the
    draw, the scan finds nothing. *)
Lemma prob_scan_none {A} (vs : list A) (ps : list Q) (acc rand : Q) :
  (forall k, (k < length ps)%nat -> fold_left Qplus (firstn (S k) ps) acc <= rand) ->
  prob_scan vs ps acc rand = None.
Proof.
  revert ps acc. induction vs as [|x vs IH]; intros ps acc H; [reflexivity|].
  destruct ps as [|p ps]; [reflexivity|]. simpl.
  assert (H0 : acc + p <= rand) by (apply (H 0%nat); simpl; lia).
  unfold Qltb. apply Qle_bool_iff in H0. rewrite H0. simpl.
  apply IH. intros k Hk. apply (H (S k)). simpl. lia.
Qed.

(** C10: [fetch_by_prob_list] on a non-empty value list with a probability
    list of the same length returns an element of the value list whatever
    the draw; when no cumulative probability exceeds the draw
    ([Qsum (firstn (S k) ps) <= draw] for every [k]) the element returned is
    the last one, [value_list[-1]]. *)
Theorem fetch_by_prob_list_total (draws : nat -> Q) {St : Type} `{HasRng St}
  {A : Type} (vs : list A) (ps : list Q) (s : St) :
  length vs = length ps -> vs <> [] ->
  exists v s', fetch_by_prob_list draws vs ps s = inr (v, s') /\ In v vs /\
    ((forall k, (k < length ps)%nat -> Qsum (firstn (S k) ps) <= draws (rng_pos s)) ->
     py_last vs = inr v).
Proof.
  intros Hlen Hne. unfold fetch_by_prob_list, bind, get_random, lift.
  unfold fetch_by_prob_list_at. rewrite Hlen, Nat.eqb_refl.
  destruct (prob_scan vs ps 0 _) as [v|] eqn:E.
  - exists v, (rng_set (S (rng_pos s)) s). split; [reflexivity|].
    split; [eapply prob_scan_in; exact E|].
    intros Hall. rewrite (prob_scan_none vs ps 0 _ Hall) in E. discriminate.
  - destruct (py_last_in vs Hne) as [v [Hv Hin]].
    exists v, (rng_set (S (rng_pos s)) s). rewrite Hv. split; [reflexivity|].
    split; [exact Hin|reflexivity].
Qed.

(** The fallback at work: weights [1/4; 1/4] and the draw [3/4] give the last
    value [20]. *)
Lemma fetch_by_prob_list_total_witness :
  length [10%nat; 20%nat] = length [1 # 4; 1 # 4] /\ [10%nat; 20%nat] <> [] /\
  fetch_by_prob_list (fun _ => 3 # 4) [10%nat; 20%nat] [1 # 4; 1 # 4] (mkBS 0 [])
    = inr (20%nat, mkBS 1 []) /\
  exists v s', fetch_by_prob_list (fun _ => 3 # 4) [10%nat; 20%nat] [1 # 4; 1 # 4]
                 (mkBS 0 []) = inr (v, s') /\ In v [10%nat; 20%nat] /\
    ((forall k, (k < length [1 # 4; 1 # 4])%nat ->
        Qsum (firstn (S k) [1 # 4; 1 # 4]) <= (fun _ => 3 # 4) (rng_pos (mkBS 0 []))) ->
     py_last [10%nat; 20%nat] = inr v).
Proof.
  split; [reflexivity|]. split; [discriminate|]. split; [reflexivity|].
  refine (fetch_by_prob_list_total (fun _ => 3 # 4) [10%nat; 20%nat] [1 # 4; 1 # 4] (mkBS 0 []) _ _);
    [reflexivity | discriminate].
Defined.

(** ** Share normalisation *)

(** C2: the shares of an operator with two branches [1; 3] are not
    renormalised: they still sum to 4 after construction and in the
    compiled graph. *)
Definition two_branch_workflow : list RawNode :=
  [ mkRaw "src" [] ["a"; "b"] [1; 3] (PInput "ds" 10 None);
    mkRaw "a" ["src"] [] [1] (PAugment "Mosaic" (VInt 1) []);
    mkRaw "b" ["src"] [] [1] (PAugment "MixUp" (VInt 1) [("lam", VFloat (1 # 2))]) ].

Lemma shares_not_normalized :
  (exists b, dict_to_block_update (mkRaw "src" [] ["a"; "b"] [1; 3] (PInput "ds" 10 None)) = inr b
             /\ ~ (Qsum (b_shares b) == 1)) /\
  (exists bs, compile 0 two_branch_workflow = inr bs /\
     Forall (fun b => b_shares b = [1; 3]) (get_input_blocks bs) /\
     get_input_blocks bs <> []).
Proof.
  split.
  - eexists. split; [vm_compute; reflexivity|]. vm_compute. intros H. discriminate H.
  - destruct (compile 0 two_branch_workflow) as [e|bs] eqn:E; vm_compute in E;
      [discriminate|].
    injection E as <-. eexists. split; [reflexivity|]. split.
    + repeat constructor.
    + discriminate.
Qed.

(** ** The scheduler's buffer *)

Lemma key_eqb_data (a n : nat) : key_eqb (KData a) (KData n) = Nat.eqb a n.
Proof. reflexivity. Qed.

Lemma ddel_present {D : Type} (l : list (key * D)) (k : key) (d : D) :
  dlookup D l k = Some d -> exists l', ddel D l k = Some l'.
Proof.
  intros H. induction l as [|[k' v'] l IH]; [discriminate|].
  simpl in H |- *. destruct (key_eqb k k').
  - eexists; reflexivity.
  - destruct (IH H) as [l' E]. rewrite E. eexists; reflexivity.
Qed.

Lemma dlookup_dset_other {D : Type} (l : list (key * D)) (a n : nat) (v : D) :
  a <> n -> dlookup D (dset D l (KData n) v) (KData a) = dlookup D l (KData a).
Proof.
  intros Hne. apply Nat.eqb_neq in Hne.
  induction l as [|[k' v'] l IH]; simpl.
  - rewrite Hne. reflexivity.
  - destruct k' as [|m]; simpl.
    + exact IH.
    + destruct (Nat.eqb n m) eqn:E; simpl.
      * apply Nat.eqb_eq in E. subst m. rewrite Hne. reflexivity.
      * destruct (Nat.eqb a m); [reflexivity|exact IH].
Qed.

Lemma ddel_dset_present {D : Type} (l : list (key * D)) (a n : nat) (d v : D) :
  dlookup D l (KData a) = Some d -> a <> n ->
  exists l', ddel D (dset D l (KData n) v) (KData a) = Some l'.
Proof.
  intros Hl Hne. apply (ddel_present _ _ d).
  rewrite dlookup_dset_other by exact Hne. exact Hl.
Qed.

(** C6: when the fire draw of an operator says skip ([draw >= int_exe_prob]),
    [_exec_augment_block] copies the buffered input to the new data id,
    deletes the consumed entry and returns the block untouched: whatever its
    fan-in, the pending-input list is not accumulated into, and the path is
    not written. *)
Theorem skip_bypasses_pending (draws : nat -> Q) (D : Type) (apply : Aug -> Arg D -> D)
  (b : Block) (data_id new_data_id : nat) (s : Ex D) (d : D) :
  Qle_bool (b_int b) (draws (ex_rng D s)) = true ->
  dlookup D (ex_data D s) (KData data_id) = Some d ->
  new_data_id <> data_id ->
  exists l,
    ddel D (dset D (ex_data D s) (KData new_data_id) d) (KData data_id) = Some l /\
    exec_augment_block draws D apply b data_id new_data_id s
      = inr (b, mkEx D (S (ex_rng D s)) (ex_blocks D s) l (ex_path D s)).
Proof.
  intros Hskip Hd Hne.
  destruct (ddel_dset_present (ex_data D s) data_id new_data_id d d Hd
              (not_eq_sym Hne)) as [l Hl].
  exists l. split; [exact Hl|].
  unfold exec_augment_block, is_executed, get_random, bind, ret. simpl.
  unfold Qltb. rewrite Hskip. simpl.
  unfold data_get. simpl. rewrite Hd.
  unfold data_set, data_del. simpl. rewrite Hl. reflexivity.
Qed.

(** The object [Mosaic()] builds. *)
Definition mosaic : Aug := mkAug "Mosaic" [VStr "resize"] (1 # 4).

(** A compiled confluent operator ([fan_in = 0.25], fires with probability 1/2). *)
Definition confluent_block : Block :=
  mkBlock (New 1) [New 0] [] [1] 1 (Some 1) 1 (1 # 2) (Some [1]) [] true false (KAugment mosaic).

Lemma skip_bypasses_pending_witness :
  let s := mkEx nat 7 [] [(KData 3, 42%nat)] None in
  Qle_bool (b_int confluent_block) ((fun _ => 3 # 4) (ex_rng nat s)) = true /\
  dlookup nat (ex_data nat s) (KData 3) = Some 42%nat /\ 4%nat <> 3%nat /\
  exists l,
    ddel nat (dset nat (ex_data nat s) (KData 4) 42%nat) (KData 3) = Some l /\
    exec_augment_block (fun _ => 3 # 4) nat (fun _ _ => 0%nat) confluent_block 3 4 s
      = inr (confluent_block, mkEx nat (S (ex_rng nat s)) (ex_blocks nat s) l (ex_path nat s)).
Proof.
  intros s. split; [reflexivity|]. split; [reflexivity|]. split; [discriminate|].
  apply (skip_bypasses_pending (fun _ => 3 # 4) nat (fun _ _ => 0%nat) confluent_block 3 4 s 42%nat);
    [reflexivity | reflexivity | discriminate].
Defined.

(** ** Scenario A: one Source, one Transform with [fan_in = 1] *)

(** Source -> [Shift(x_shift=1, y_shift=0)] with [exe_prob = 1], the sink. *)
Definition scenario_A : list RawNode :=
  [ mkRaw "src" [] ["t"] [1] (PInput "ds" 100 None);
    mkRaw "t" ["src"] [] [1]
      (PAugment "Shift" (VInt 1) [("x_shift", VInt 1); ("y_shift", VInt 0)]) ].

(** C1: no Transform with [fan_in = 1] can be built.  [Augment.__init__]
    ends with [int(1 / self.inflation)], which reads the augmentation
    object's [inflation]; only [Mosaic] (0.25) and [MixUp] (0.5) set one, and
    every single-image transform ([Shift], [Scale], [Rotate], [Resize],
    [Crop]) makes it raise [AttributeError].  On Scenario A the [Executor]
    is never built, whatever the generator, so no [fetch] applies the
    transform. *)
Theorem scenario_A_init_fails (D : Type) :
  (forall r b a, dict_to_block_update r = inr b -> b_kind b = KAugment a ->
                 aug_inflation a = 1 # 4 \/ aug_inflation a = 1 # 2) /\
  (forall rng, executor_init D rng scenario_A = inl AttributeError).
Proof.
  split.
  - intros r b a E Hk. unfold dict_to_block_update in E.
    destruct normalize_shares as [|sh]; [discriminate|].
    destruct (r_params r) as [ds n fs|cls p kw].
    + unfold init_input, init_block in E. destruct normalize_shares; [discriminate|].
      destruct fs as [[|x xs]|]; try (injection E as <-; discriminate).
      destruct Nat.eqb; [injection E as <-; discriminate|discriminate].
    + apply init_augment_inv in E as (ps & infl & q & Ec & _ & ->).
      injection Hk as <-. cbn.
      destruct (construct_aug_inflation _ _ _ _ Ec) as [(_ & -> & _)|(_ & -> & _)]; auto.
  - intros rng. reflexivity.
Qed.

(** ** Reach probabilities of the Sources *)

(** Whether the operator [i] of the compiled graph reaches a sink along its
    [next] links. *)
Fixpoint reaches_sink (fuel : nat) (bs : list Block) (i : bid) : bool :=
  match fuel with
  | O => false
  | S f =>
      match get_block_by_id bs i with
      | None => false
      | Some b =>
          if b_is_output b then true
          else match b_next b with
               | n :: _ => reaches_sink f bs n
               | [] => false
               end
      end
  end.

(** [Σ external_reach_prob × uses] over the sink-reaching Sources. *)
Definition source_mass (bs : list Block) : Q :=
  Qsum (map (fun b => b_ext b * inject_Z (Z.of_nat (uses b)))
            (filter (fun b => reaches_sink (length bs) bs (b_id b)) (get_input_blocks bs))).

(** One Source split in two branches of share 1/2, each to its own sink. *)
Definition split_source_workflow : list RawNode :=
  [ mkRaw "src" [] ["a"; "b"] [1 # 2; 1 # 2] (PInput "ds" 100 None);
    mkRaw "a" ["src"] [] [1] (PAugment "Mosaic" (VInt 1) []);
    mkRaw "b" ["src"] [] [1] (PAugment "MixUp" (VInt 1) [("lam", VFloat (1 # 2))]) ].

(** C3: [Input.set] does not fold the branch share into [ext_exe_prob] (the
    overridden [Block.set] does): both instances of the split Source keep
    the reach probability 1, and the Sources' mass is 2, not 1. *)
Theorem split_source_mass_two :
  exists bs, compile 0 split_source_workflow = inr bs /\
    length (get_input_blocks bs) = 2%nat /\
    forallb (fun b => reaches_sink (length bs) bs (b_id b)) (get_input_blocks bs) = true /\
    Forall (fun b => b_ext b == 1 /\
                     match b_kind b with KInput f => i_share f = Some (1 # 2) | _ => False end)
           (get_input_blocks bs) /\
    source_mass bs == 2 /\ ~ (source_mass bs == 1).
Proof.
  destruct (compile 0 split_source_workflow) as [e|bs] eqn:E; vm_compute in E;
    [discriminate|].
  injection E as <-. eexists. split; [reflexivity|].
  split; [reflexivity|]. split; [reflexivity|].
  split; [repeat constructor|].
  split; [reflexivity|]. vm_compute. discriminate.
Qed.

(** ** Scenario C: one Source with a filter, one confluent Transform *)

(** A generator whose every draw is [0.5]. *)
Definition half_draws : nat -> Q := fun _ => 1 # 2.

Definition scenario_C (exe_prob : Q) : list RawNode :=
  [ mkRaw "src" [] ["t"] [1] (PInput "ds" 100 (Some ["f"]));
    mkRaw "t" ["src"] [] [1] (PAugment "Mosaic" (VFloat exe_prob) []) ].

(** Three items; the filter ["f"] selects the third one only. *)
Definition filtered_ds : Dataset nat := mkDataset nat "ds" [7; 8; 9]%nat None [] [("f", [2%nat])].

(** [apply] as the sum of its inputs. *)
Definition apply_sum (a : Aug) (x : Arg nat) : nat :=
  match x with One _ d => d | Many _ ds => fold_left Nat.add ds 0%nat end.

(** C9: the Source's resolved filter is ["f"] but [_execute_path] calls
    [Dataset.fetch()] without it: the four draws all return item 8, which
    the filter excludes (a filtered draw always returns 9). *)
Theorem seeding_ignores_filter :
  (exists e s', executor_init nat 0 (scenario_C 1) = inr e /\
     (exists b, get_input_blocks (ex_blocks nat e) = [b] /\
                match b_kind b with KInput f => i_filter f = Some "f" | _ => False end) /\
     fetch half_draws nat apply_sum (fun d => inr d) [filtered_ds] e = inr (32%nat, s')) /\
  (forall s, exists s', dataset_fetch half_draws nat filtered_ds (Some "f") s = inr (9%nat, s')) /\
  (forall s, exists s', dataset_fetch half_draws nat filtered_ds None s = inr (8%nat, s')).
Proof.
  split; [|split].
  - do 2 eexists. split; [vm_compute; reflexivity|]. split.
    + eexists. split; [vm_compute; reflexivity|]. reflexivity.
    + vm_compute. reflexivity.
  - intros s. eexists. reflexivity.
  - intros s. eexists. reflexivity.
Qed.

(** ** The confluence threshold *)

Definition three_quarter_draws : nat -> Q := fun _ => 3 # 4.
Definition quarter_draws : nat -> Q := fun _ => 1 # 4.

(** The compiled Source of Scenario C, feeding [confluent_block]. *)
Definition src_block : Block :=
  mkBlock (New 0) [] [New 1] [1] 1 None 1 1 None [] false true
    (KInput (mkInputF "ds" 100 (Some ["f"]) (Some 1) (Some 100) (Some "f") 4)).

(** Samples arriving one after the other at the Source. *)
Definition arrivals (draws : nat -> Q) (apply : Aug -> Arg nat -> nat) (ids : list nat)
  : M (Ex nat) unit :=
  iterM (fun i => propagate draws nat apply recursion_limit src_block i) ids.

(** Three buffered samples and the path Source -> confluent sink. *)
Definition three_samples : Ex nat :=
  mkEx nat 10 [] [(KData 0, 7%nat); (KData 1, 8%nat); (KData 2, 9%nat)]
    (Some (mkPath [src_block] [confluent_block])).

Definition pending_of (s : Ex nat) (i : bid) : option (list nat) :=
  match ex_path nat s with
  | Some p => option_map b_pending (get_block_by_id (p_augs p) i)
  | None => None
  end.

(** When every fire draw succeeds, the threshold holds: three samples leave
    the confluent operator waiting (three pending ids, no output); the fourth
    makes it fire once on the four samples in arrival order. *)
Lemma confluent_threshold_when_firing :
  (exists s', arrivals quarter_draws apply_sum [0; 1; 2]%nat three_samples = inr (tt, s') /\
     dlookup nat (ex_data nat s') KOut = None /\
     option_map (@length nat) (pending_of s' (New 1)) = Some 3%nat) /\
  (exists s', arrivals quarter_draws apply_sum [0; 1; 2; 3]%nat
                (mkEx nat 10 [] [(KData 0, 7%nat); (KData 1, 8%nat); (KData 2, 9%nat);
                                 (KData 3, 100%nat)]
                   (Some (mkPath [src_block] [confluent_block]))) = inr (tt, s') /\
     dlookup nat (ex_data nat s') KOut = Some 124%nat /\
     pending_of s' (New 1) = Some []).
Proof.
  split; eexists; (split; [vm_compute; reflexivity|]); split; reflexivity.
Qed.

(** C4: a confluent operator whose fire draw says skip does not wait: with
    [fire_probability = 1/2] and draws of 3/4, after only three samples the
    sink already holds an output (the third sample copied through) and
    nothing is pending; on Scenario C, [fetch] returns a raw sample and
    never calls [apply]. *)
Theorem confluent_skip_does_not_wait :
  (exists s', arrivals three_quarter_draws apply_sum [0; 1; 2]%nat three_samples = inr (tt, s') /\
     dlookup nat (ex_data nat s') KOut = Some 9%nat /\
     pending_of s' (New 1) = Some []) /\
  (exists e s', executor_init nat 0 (scenario_C (1 # 2)) = inr e /\
     fetch three_quarter_draws nat (fun _ _ => 1000%nat) (fun d => inr d) [filtered_ds] e
       = inr (9%nat, s')).
Proof.
  split.
  - eexists. split; [vm_compute; reflexivity|]. split; reflexivity.
  - do 2 eexists. split; [vm_compute; reflexivity|]. vm_compute. reflexivity.
Qed.

(** ** Determinism of [fetch] *)

Lemma reset_blocks_run (r : nat) (bs : list Block) :
  reset_blocks (mkBS r bs) = inr (tt, mkBS r (map reset_block bs)).
Proof. reflexivity. Qed.

Lemma bind_step {S A B} (m : M S A) (f : A -> M S B) (s s' : S) (a : A) :
  m s = inr (a, s') -> bind m f s = f a s'.
Proof. intros H. unfold bind. rewrite H. reflexivity. Qed.

(** [fetch_path] starts with [Blocks.reset]: it only sees the compiled
    blocks as the reset leaves them. *)
Lemma fetch_path_after_reset (draws : nat -> Q) (r : nat) (bs1 bs2 : list Block) :
  map reset_block bs1 = map reset_block bs2 ->
  fetch_path draws (mkBS r bs1) = fetch_path draws (mkBS r bs2).
Proof.
  intros H. unfold fetch_path.
  rewrite (bind_step _ _ _ _ _ (reset_blocks_run r bs1)).
  rewrite (bind_step _ _ _ _ _ (reset_blocks_run r bs2)).
  rewrite H. reflexivity.
Qed.

(** C8: [fetch] is a function of the generator state, the datasets and the
    compiled graph: two executors whose generators stand at the same
    position and whose blocks agree up to the per-fetch fields that
    [Blocks.reset] overwrites ([uses], the pending-input lists) return the
    same result, whatever their buffers and last paths hold.  Path sampling,
    fire draws, data ids and dataset draws all consume the one generator. *)
Theorem fetch_deterministic (draws : nat -> Q) (D : Type) (apply : Aug -> Arg D -> D)
  (tr : D -> exn + D) (dss : list (Dataset D)) (e1 e2 : Ex D) :
  ex_rng D e1 = ex_rng D e2 ->
  map reset_block (ex_blocks D e1) = map reset_block (ex_blocks D e2) ->
  fetch draws D apply tr dss e1 = fetch draws D apply tr dss e2.
Proof.
  intros Hr Hb. destruct e1 as [r1 bs1 d1 p1], e2 as [r2 bs2 d2 p2].
  cbn in Hr, Hb. subst r2. unfold fetch.
  cbv beta iota delta [bind lift_bs ex_rng ex_blocks ex_data ex_path].
  rewrite (fetch_path_after_reset draws r1 _ _ Hb).
  reflexivity.
Qed.

(** The executor of Scenario C, fresh, and the same executor after one
    [fetch] (its Source has [uses = 4], its buffer and path are filled), with
    the generator put back to the fresh position. *)
Definition exec_C : Ex nat :=
  match executor_init nat 0 (scenario_C 1) with
  | inr e => e
  | inl _ => mkEx nat 0 [] [] None
  end.

Definition exec_C_used : Ex nat :=
  match fetch half_draws nat apply_sum (fun d => inr d) [filtered_ds] exec_C with
  | inr (_, s) => mkEx nat (ex_rng nat exec_C) (ex_blocks nat s) (ex_data nat s) (ex_path nat s)
  | inl _ => exec_C
  end.

Lemma fetch_deterministic_witness :
  ex_rng nat exec_C = ex_rng nat exec_C_used /\
  map reset_block (ex_blocks nat exec_C) = map reset_block (ex_blocks nat exec_C_used) /\
  fetch half_draws nat apply_sum (fun d => inr d) [filtered_ds] exec_C
    = fetch half_draws nat apply_sum (fun d => inr d) [filtered_ds] exec_C_used /\
  ex_blocks nat exec_C <> ex_blocks nat exec_C_used /\ ex_data nat exec_C_used <> [].
Proof.
  split; [vm_compute; reflexivity|]. split; [vm_compute; reflexivity|]. split.
  - apply (fetch_deterministic half_draws nat apply_sum (fun d => inr d) [filtered_ds]
             exec_C exec_C_used); vm_compute; reflexivity.
  - split; vm_compute; discriminate.
Defined.

(** ** Validation in [Blocks.build] *)

(** A block that is not a sink ([is_output = False]). *)
Definition no_out (b : Block) : Prop := b_is_output b = false.

Lemma Forall_app1 (l : list Block) b : Forall no_out l -> no_out b -> Forall no_out (l ++ [b]).
Proof. intros; apply Forall_app; auto. Qed.
Lemma Forall_replace l b : Forall no_out l -> no_out b -> Forall no_out (replace_block l b).
Proof. induction 1; intros; simpl; [constructor|]. destruct bid_eqb; auto. Qed.
Lemma Forall_update_nth l n b : Forall no_out l -> no_out b -> Forall no_out (update_nth l n b).
Proof. intros H; revert n; induction H; intros [|n] Hb; simpl; auto. Qed.
Lemma gbi_no_out l i b : get_block_by_id l i = Some b -> Forall no_out l -> no_out b.
Proof. intros E H; induction H; simpl in E; [discriminate|]. destruct bid_eqb; [congruence|auto]. Qed.
Lemma py_index_no_out l n b : py_index l n = inr b -> Forall no_out l -> no_out b.
Proof.
  unfold py_index; intros E H. destruct (nth_error l n) eqn:En; [|discriminate].
  injection E as <-. eapply Forall_forall; [exact H|]. eapply nth_error_In; eauto.
Qed.
Lemma set_block_no_out b i b' : set_block b i = inr b' -> no_out b -> no_out b'.
Proof.
  unfold set_block, no_out; intros E H. destruct negb; [discriminate|].
  destruct (b_kind b).
  - destruct (py_index (b_next b) i), (py_index (b_shares b) i); try discriminate.
    destruct (i_filters f) as [[|x xs]|]; try (injection E as <-; exact H).
    destruct py_index; [discriminate|]. injection E as <-; exact H.
  - rewrite H in E.
    destruct (py_index (b_next b) i), (py_index (b_shares b) i); try discriminate.
    injection E as <-; exact H.
Qed.
Lemma no_out_set_id i b : no_out b -> no_out (set_id i b). Proof. auto. Qed.
Lemma no_out_set_next i b : no_out b -> no_out (set_next i b). Proof. auto. Qed.
Lemma no_out_set_prev i b : no_out b -> no_out (set_prev i b). Proof. auto. Qed.
Lemma no_out_set_ext i b : no_out b -> no_out (set_ext i b). Proof. auto. Qed.
Lemma no_out_set_prev_ext i b : no_out b -> no_out (set_prev_ext i b). Proof. auto. Qed.

(** Case analysis on every [match] of a successful monadic run. *)
Ltac bust :=
  repeat match goal with
  | H : inl _ = inr _ |- _ => discriminate H
  | H : inr _ = inr _ |- _ => injection H as; subst
  | H : (_, _) = (_, _) |- _ => injection H as; subst
  | H : context [match ?x with _ => _ end] |- _ =>
      lazymatch type of H with _ = inr _ => idtac end; destruct x eqn:?; cbn [bs_blocks bs_rng] in *
  end.

Ltac solve_no_out :=
  repeat match goal with
  | |- Forall no_out (_ ++ [_]) => apply Forall_app1
  | |- Forall no_out (replace_block _ _) => apply Forall_replace
  | |- Forall no_out (update_nth _ _ _) => apply Forall_update_nth
  | |- no_out (set_id _ _) => apply no_out_set_id
  | |- no_out (set_next _ _) => apply no_out_set_next
  | |- no_out (set_prev _ _) => apply no_out_set_prev
  | |- no_out (set_ext _ _) => apply no_out_set_ext
  | |- no_out (set_prev_ext _ _) => apply no_out_set_prev_ext
  | H : py_index _ _ = inr ?b |- no_out ?b => apply (py_index_no_out _ _ _ H)
  | H : get_block_by_id _ _ = Some ?b |- no_out ?b => apply (gbi_no_out _ _ _ H)
  | H : set_block _ _ = inr ?b |- no_out ?b => apply (set_block_no_out _ _ _ H)
  end; try assumption.

(** [_build_from_block] stores only blocks derived from the raw blocks and
    the blocks already stored: it adds no sink to a store without one. *)
Lemma bfb_no_sink (fuel : nat) : forall raw rbs si pid s u s',
  Forall no_out rbs -> no_out raw -> Forall no_out (bs_blocks s) ->
  build_from_block fuel raw rbs si pid s = inr (u, s') -> Forall no_out (bs_blocks s').
Proof.
  induction fuel as [|f IH]; intros raw rbs si pid s u s' Hr Hraw Hs H; [discriminate|].
  cbn [build_from_block] in H.
  cbv beta iota delta [bind new_id ret lift get_blocks get put_blocks put raise rng_pos rng_set BS_rng] in H.
  cbn [bs_blocks bs_rng] in H.
  bust.
  all: repeat match goal with
       | H : build_from_block _ ?r _ _ _ ?s1 = inr (_, ?s2) |- _ =>
           assert (Forall no_out (bs_blocks s2)) by (cbn [bs_blocks bs_rng] in *; eapply IH; [ | | | exact H]; cbn [bs_blocks bs_rng]; solve_no_out); clear H
       end.
  all: cbn [bs_blocks bs_rng] in *; solve_no_out.
Qed.

Lemma init_block_no_out i p nx sh k b :
  nx <> [] -> init_block i p nx sh k = inr b -> no_out b /\ b_next b = nx.
Proof.
  unfold init_block, no_out; intros Hn E. destruct normalize_shares; [discriminate|].
  injection E as <-; simpl. destruct nx; [congruence|auto].
Qed.

(** A raw node with a non-empty [next] list is not a sink. *)
Lemma dict_to_block_no_out r b : r_next r <> [] -> dict_to_block_update r = inr b -> no_out b.
Proof.
  unfold dict_to_block_update; intros Hn E.
  assert (Hm : map Raw (r_next r) <> []) by (destruct (r_next r); simpl; congruence).
  destruct normalize_shares as [|sh]; [discriminate|].
  destruct (r_params r).
  - unfold init_input in E. destruct init_block as [|b1] eqn:E1; [discriminate|].
    apply init_block_no_out in E1 as [Hb1 _]; [|exact Hm].
    destruct filters as [[|x xs]|]; try (injection E as <-; exact Hb1).
    destruct Nat.eqb; [injection E as <-; exact Hb1|discriminate].
  - apply init_augment_inv in E as (ps & infl & q & _ & _ & ->).
    unfold no_out; cbn. destruct (map Raw (r_next r)); [congruence|reflexivity].
Qed.

Lemma mapE_dict_no_out l bs :
  Forall (fun r => r_next r <> []) l -> mapE dict_to_block_update l = inr bs -> Forall no_out bs.
Proof.
  intros H; revert bs; induction H as [|r l Hr H IH]; intros bs E; simpl in E.
  - injection E as <-; constructor.
  - destruct dict_to_block_update as [|b] eqn:Eb; [discriminate|].
    destruct mapE as [|ys]; [discriminate|]. injection E as <-.
    constructor; [eapply dict_to_block_no_out; eauto|auto].
Qed.

Lemma set_ipt_no_out rbs l :
  Forall no_out rbs -> set_ipt_blocks_exe_prob rbs = inr l -> Forall no_out l.
Proof.
  unfold set_ipt_blocks_exe_prob.
  generalize (Qsum (map (fun b => match b_kind b with KInput f => i_n_total f | _ => 0 end)
                      (get_input_blocks rbs))) as t.
  intros t H; revert l; induction H as [|b bs Hb H IH]; intros l E; simpl in E.
  - injection E as <-; constructor.
  - destruct fold_right as [|l0] eqn:E0; [discriminate|].
    destruct (b_kind b).
    + destruct pydiv; [discriminate|]. injection E as <-. constructor; auto.
    + injection E as <-. constructor; auto.
Qed.

Lemma iter_bfb_no_sink fuel rbs : forall ins s u s',
  Forall no_out rbs -> Forall no_out ins -> Forall no_out (bs_blocks s) ->
  iterM (fun b => build_from_block fuel b rbs 0 None) ins s = inr (u, s') ->
  Forall no_out (bs_blocks s').
Proof.
  unfold iterM.
  intros ins; induction ins as [|b ins IH]; intros s u s' Hr Hi Hs E; cbn [mapM] in E; unfold bind, ret in E.
  - injection E as <- <-; exact Hs.
  - inversion Hi as [|? ? Hb Hi']; subst.
    destruct (build_from_block fuel b rbs 0 None s) as [|[u1 s1]] eqn:E1; [discriminate|].
    destruct (mapM (fun b => build_from_block fuel b rbs 0 None) ins s1) as [|[ys s2]] eqn:E2; [discriminate|].
    injection E as <- <-.
    apply (IH s1 tt s2); auto.
    + eapply bfb_no_sink; [exact Hr|exact Hb|exact Hs|exact E1].
    + unfold bind, ret. rewrite E2; reflexivity.
Qed.

Lemma get_output_blocks_no_out bs : Forall no_out bs -> get_output_blocks bs = inl ValueError.
Proof.
  unfold get_output_blocks; intros H.
  replace (filter b_is_output bs) with (@nil Block); [reflexivity|].
  induction H as [|b bs Hb H IH]; simpl; [reflexivity|]. rewrite Hb; exact IH.
Qed.

(** Without a raw node whose [next] list is empty, [build] raises. *)
Lemma no_sink_compile_fails rng raws :
  Forall (fun r => r_next r <> []) raws -> exists e, compile rng raws = inl e.
Proof.
  intros H. unfold compile, build, bind, lift, get_blocks, get, ret.
  destruct (mapE dict_to_block_update raws) as [e|rbs] eqn:E1; [eauto|].
  destruct (set_ipt_blocks_exe_prob rbs) as [e|rbs'] eqn:E2; [eauto|].
  destruct iterM as [e|[u s]] eqn:E3; [eauto|].
  cbv beta iota delta [bind get ret]. rewrite get_output_blocks_no_out; [eauto|].
  assert (Hr : Forall no_out rbs') by (eapply set_ipt_no_out; [eapply mapE_dict_no_out|]; eauto).
  eapply (iter_bfb_no_sink _ _ _ (mkBS rng [])); [exact Hr| |constructor|exact E3].
  unfold get_input_blocks. apply Forall_forall; intros x Hx.
  apply filter_In in Hx as [Hx _]. eapply Forall_forall; eauto.
Qed.

(** A Source with two [next] ids and one share: only the first branch is built. *)
Definition mismatched_shares_workflow : list RawNode :=
  [ mkRaw "src" [] ["t"; "u"] [1] (PInput "ds" 100 None);
    mkRaw "t" ["src"] [] [1] (PAugment "Mosaic" (VInt 1) []);
    mkRaw "u" ["src"] [] [1] (PAugment "MixUp" (VInt 1) [("lam", VFloat (1 # 2))]) ].

(** A [next] id ["ghost"] and a [prev] id ["phantom"] that name no node. *)
Definition dangling_ids_workflow : list RawNode :=
  [ mkRaw "src" [] ["t"; "ghost"] [1 # 2; 1 # 2] (PInput "ds" 100 None);
    mkRaw "t" ["src"; "phantom"] [] [1] (PAugment "Mosaic" (VInt 1) []) ].

(** A single Source whose only successor is absent: no sink. *)
Definition no_sink_workflow : list RawNode :=
  [ mkRaw "src" [] ["ghost"] [1] (PInput "ds" 100 None) ].

(** C7 (counterexample): a node whose shares list is shorter than its next
    list compiles without error; the second branch is silently dropped. *)
Lemma mismatched_shares_compile :
  (exists r, In r mismatched_shares_workflow /\ length (r_shares r) <> length (r_next r)) /\
  (exists bs, compile 0%nat mismatched_shares_workflow = inr bs /\
              length (get_augment_blocks bs) = 1%nat).
Proof.
  split.
  - eexists. split; [left; reflexivity|]. discriminate.
  - destruct (compile 0%nat mismatched_shares_workflow) as [e|bs] eqn:E; vm_compute in E;
      [discriminate|].
    injection E as <-. eexists. split; reflexivity.
Qed.

(** C7 (amended): [Blocks.build] raises some error whenever no raw node has
    an empty [next] list (the [ValueError] of [_get_output_blocks] on the
    single Source with an absent successor), but it checks neither that the
    shares and [next] lists have equal length nor that the [next]/[prev] ids
    exist: such graphs compile, the dangling [next] id staying in the
    compiled graph. *)
Theorem build_checks_only_sink :
  (forall rng raws, Forall (fun r => r_next r <> []) raws ->
                    exists e, compile rng raws = inl e) /\
  compile 0%nat no_sink_workflow = inl ValueError /\
  (exists bs, compile 0%nat mismatched_shares_workflow = inr bs) /\
  (exists bs, compile 0%nat dangling_ids_workflow = inr bs /\
              exists b, In b bs /\ b_next b = [Raw "ghost"]).
Proof.
  split; [exact no_sink_compile_fails|]. split; [vm_compute; reflexivity|]. split.
  - destruct (compile 0%nat mismatched_shares_workflow) as [e|bs] eqn:E; vm_compute in E;
      [discriminate|eauto].
  - destruct (compile 0%nat dangling_ids_workflow) as [e|bs] eqn:E; vm_compute in E;
      [discriminate|].
    injection E as <-. eexists. split; [reflexivity|].
    eexists. split; [left; reflexivity|reflexivity].
Qed.

Lemma build_checks_only_sink_witness :
  Forall (fun r => r_next r <> []) no_sink_workflow /\ exists e, compile 0%nat no_sink_workflow = inl e.
Proof.
  split.
  - constructor; [discriminate|constructor].
  - apply (proj1 build_checks_only_sink 0%nat no_sink_workflow).
    constructor; [discriminate|constructor].
Defined.

(** ** Deduplication of a shared Transform *)

(** Two Sources of equal weight [n], on datasets ["d1"] and ["d2"], each
    feeding the Transform ["t"], a sink built from [class_name], [exe_prob]
    and [kwargs]. *)
Definition shared_sink_raw (cls : string) (p : pyval) (kw : kwargs) : RawNode :=
  mkRaw "t" ["s1"; "s2"] [] [1] (PAugment cls p kw).
Definition shared_sink_workflow (n : Q) (cls : string) (p : pyval) (kw : kwargs) : list RawNode :=
  [ mkRaw "s1" [] ["t"] [1] (PInput "d1" n None);
    mkRaw "s2" [] ["t"] [1] (PInput "d2" n None);
    shared_sink_raw cls p kw ].

(** The Source blocks [Blocks._dict_to_block(raw).update()] makes of them. *)
Definition raw_source (i ds : string) (n : Q) : Block :=
  mkBlock (Raw i) [] [Raw "t"] [1] 1 None 1 1 None [] false true
    (KInput (mkInputF ds n None None None None 1)).

Lemma pylist_eqb_refl (l : list pyval) : pylist_eqb l l = true.
Proof.
  induction l as [|x l IH]; [reflexivity|]. cbn. rewrite IH, andb_true_r.
  destruct x; cbn; try apply Qeq_bool_refl; try apply String.eqb_refl; reflexivity.
Qed.

(** The sink block of a transform object [a] with [int_exe_prob = q]. *)
Definition sink_block (a : Aug) (q : Q) : Block :=
  mkBlock (Raw "t") [Raw "s1"; Raw "s2"] [] [1] 1 None 1 q None [] true false (KAugment a).

(** The sink block: an [Augment] whose object equals itself. *)
Lemma shared_sink_block (cls : string) (p : pyval) (kw : kwargs) (tb : Block) :
  dict_to_block_update (shared_sink_raw cls p kw) = inr tb ->
  exists a q, aug_eqb a a = true /\ 0 <= q <= 1 /\ tb = sink_block a q.
Proof.
  unfold dict_to_block_update. cbn -[init_augment]. intros E.
  apply init_augment_inv in E as (ps & infl & q & Ec & Eq & ->).
  exists (mkAug cls ps infl), q. split; [|split].
  - unfold aug_eqb; cbn. rewrite String.eqb_refl, pylist_eqb_refl.
    destruct (construct_aug_inflation _ _ _ _ Ec) as [(-> & _)|(-> & _)]; reflexivity.
  - destruct (set_int_exe_prob_inv _ _ Eq) as [[_ H]|[_ ->]]; [exact H|].
    split; discriminate.
  - reflexivity.
Qed.

Lemma shared_sink_raw_blocks n cls p kw tb :
  dict_to_block_update (shared_sink_raw cls p kw) = inr tb ->
  mapE dict_to_block_update (shared_sink_workflow n cls p kw) =
  inr [raw_source "s1" "d1" n; raw_source "s2" "d2" n; tb].
Proof. intros E. unfold shared_sink_workflow. cbn -[dict_to_block_update]. rewrite E. reflexivity. Qed.

Lemma shared_sink_ipt n (Hn : 0 < n) a q :
  set_ipt_blocks_exe_prob [raw_source "s1" "d1" n; raw_source "s2" "d2" n; sink_block a q] =
  inr [set_ext (1 * (n / (0 + n + n))) (raw_source "s1" "d1" n);
       set_ext (1 * (n / (0 + n + n))) (raw_source "s2" "d2" n); sink_block a q].
Proof.
  assert (Hz : Qeq_bool (0 + n + n) 0 = false).
  { apply not_true_iff_false. rewrite Qeq_bool_iff. intros H.
    apply (Qlt_irrefl 0). rewrite <- H at 2. rewrite Qplus_0_l.
    apply (Qlt_trans _ n); [exact Hn|]. rewrite <- (Qplus_0_r n) at 1.
    apply Qplus_lt_r; exact Hn. }
  unfold set_ipt_blocks_exe_prob, pydiv. cbn -[Qeq_bool Qplus Qmult Qdiv]. rewrite Hz. reflexivity.
Qed.

(** C5: two Sources of equal weight feeding a shared Transform, whatever its
    class, [exe_prob] and [kwargs] (as long as it can be built): compiling
    yields exactly one instance of it (the second branch finds it by
    [_get_duplicate_index] and appends its Source to [prev]), with the same
    augmentation object and [int_exe_prob]; its [ext_exe_prob] equals the sum
    of the two Sources' contributions ([1/2] each, times the branch share
    [1]), i.e. 1. *)
Theorem shared_transform_dedup (n : Q) (cls : string) (p : pyval) (kw : kwargs) (tb : Block) :
  0 < n ->
  dict_to_block_update (shared_sink_raw cls p kw) = inr tb ->
  exists bs, compile 0%nat (shared_sink_workflow n cls p kw) = inr bs /\
    exists t, get_augment_blocks bs = [t] /\
      b_kind t = b_kind tb /\ b_int t = b_int tb /\
      b_prev t = map b_id (get_input_blocks bs) /\
      length (get_input_blocks bs) = 2%nat /\
      Forall (fun b => b_ext b == 1 # 2) (get_input_blocks bs) /\
      b_ext t == Qsum (map b_ext (get_input_blocks bs)) /\ b_ext t == 1.
Proof.
  intros Hn Htb.
  pose proof (shared_sink_raw_blocks n cls p kw tb Htb) as Hraw.
  apply shared_sink_block in Htb as (a & q & Ha & Hq & ->).
  unfold compile, build.
  rewrite (bind_step _ _ (mkBS 0 []) (mkBS 0 []) _)
    by (unfold lift; rewrite Hraw; reflexivity).
  rewrite (bind_step _ _ (mkBS 0 []) (mkBS 0 []) _)
    by (unfold lift; rewrite (shared_sink_ipt n Hn a q); reflexivity).
  assert (He : 1 * (n / (0 + n + n)) == 1 # 2).
  { assert (Hn0 : ~ n == 0) by (intros H; rewrite H in Hn; discriminate).
    field. intros H. apply (Qlt_irrefl 0). rewrite <- H at 2.
    apply (Qlt_trans _ n); [exact Hn|]. rewrite <- (Qplus_0_r n) at 1.
    apply Qplus_lt_r; exact Hn. }
  remember (1 * (n / (0 + n + n))) as e eqn:Ee.
  (* four levels of recursion are enough; the rest of the budget stays
     abstract, so that the branches of the still undecided comparisons stop
     there *)
  change recursion_limit with (S (S (S (S 996%nat)))).
  generalize 996%nat as k. intros k.
  cbv -[Qplus Qmult Qle_bool Qeq Qsum aug_eqb Qeq_bool].
  rewrite Ha, !Qeq_bool_refl.
  cbv -[Qplus Qmult Qle_bool Qeq Qsum aug_eqb Qeq_bool].
  assert (Hv : Qsum [e; e] * (1 * 1) == 1)
    by (unfold Qsum; cbn [fold_left]; rewrite He; reflexivity).
  assert (H0 : Qle_bool 0 (Qsum [e; e] * (1 * 1)) = true) by (apply Qle_bool_iff; rewrite Hv; discriminate).
  assert (H1 : Qle_bool (Qsum [e; e] * (1 * 1)) 1 = true) by (apply Qle_bool_iff; rewrite Hv; discriminate).
  rewrite H0, H1.
  eexists. split; [reflexivity|].
  eexists. split; [reflexivity|].
  split; [reflexivity|]. split; [reflexivity|].
  split; [reflexivity|]. split; [reflexivity|].
  split; [repeat constructor; exact He|].
  split; [unfold Qsum; cbn [fold_left]; ring|exact Hv].
Qed.

(** The block [Augment("t", ["s1", "s2"], [], [1], "Mosaic", 1)] builds. *)
Definition mosaic_sink : Block :=
  mkBlock (Raw "t") [Raw "s1"; Raw "s2"] [] [1] 1 None 1 1 None [] true false (KAugment mosaic).

Lemma shared_transform_dedup_witness :
  0 < 100 /\ dict_to_block_update (shared_sink_raw "Mosaic" (VInt 1) []) = inr mosaic_sink /\
  exists bs, compile 0%nat (shared_sink_workflow 100 "Mosaic" (VInt 1) []) = inr bs /\
    exists t, get_augment_blocks bs = [t] /\
      b_kind t = b_kind mosaic_sink /\ b_int t = b_int mosaic_sink /\
      b_prev t = map b_id (get_input_blocks bs) /\
      length (get_input_blocks bs) = 2%nat /\
      Forall (fun b => b_ext b == 1 # 2) (get_input_blocks bs) /\
      b_ext t == Qsum (map b_ext (get_input_blocks bs)) /\ b_ext t == 1.
Proof.
  split; [reflexivity|]. split; [vm_compute; reflexivity|].
  refine (shared_transform_dedup 100 "Mosaic" (VInt 1) [] mosaic_sink _ _);
    vm_compute; reflexivity.
Defined.

(** * Further properties of the code *)

(** ** [utils/misc.py] *)

(** Python's [int] on a float: truncation towards zero. *)
Definition py_int (x : Q) : Z :=
  if Qle_bool 0 x then Qfloor x else (- Qfloor (- x))%Z.

(** [get_seed() = int(random.random() * 90000) + 10000], for the draw [r]
    of Python's [random.random()]. *)
Definition get_seed (r : Q) : Z := (py_int (r * 90000) + 10000)%Z.

Lemma Qfloor_nonneg (x : Q) : 0 <= x -> (0 <= Qfloor x)%Z.
Proof. intros H. apply (Qfloor_resp_le 0 x) in H. exact H. Qed.

Lemma Qfloor_lt_Z (x : Q) (n : Z) : x < inject_Z n -> (Qfloor x < n)%Z.
Proof.
  intros H. rewrite Zlt_Qlt. eapply Qle_lt_trans; [apply Qfloor_le|exact H].
Qed.

Lemma Qfloor_ge_Z (x : Q) (n : Z) : inject_Z n <= x -> (n <= Qfloor x)%Z.
Proof. intros H. apply Qfloor_resp_le in H. rewrite Qfloor_Z in H. exact H. Qed.

Lemma length_pos_Q {A} (vs : list A) : vs <> [] -> 0 < inject_Z (Z.of_nat (length vs)).
Proof.
  intros H. destruct vs as [|x vs]; [congruence|]. simpl length.
  change 0 with (inject_Z 0). rewrite <- Zlt_Qlt. lia.
Qed.

Lemma fetch_by_prob_floor {A} (vs : list A) (p : Q) :
  0 <= p -> p < 1 -> vs <> [] ->
  exists k v, (k < length vs)%nat /\
    Z.of_nat k = Qfloor (p * inject_Z (Z.of_nat (length vs))) /\
    nth_error vs k = Some v /\ fetch_by_prob vs p = inr v.
Proof.
  intros H0 H1 Hne. pose proof (length_pos_Q vs Hne) as Hn.
  set (n := inject_Z (Z.of_nat (length vs))) in *.
  assert (Hx0 : 0 <= p * n) by (apply Qmult_le_0_compat; [exact H0|apply Qlt_le_weak; exact Hn]).
  assert (Hxn : p * n < n).
  { rewrite <- (Qmult_1_l n) at 2. apply Qmult_lt_r; assumption. }
  pose proof (Qfloor_nonneg _ Hx0) as Hi0.
  pose proof (Qfloor_lt_Z _ _ Hxn) as Hin.
  destruct (nth_error vs (Z.to_nat (Qfloor (p * n)))) as [v|] eqn:Ev.
  - exists (Z.to_nat (Qfloor (p * n))), v. split; [lia|]. split; [lia|]. split; [exact Ev|].
    unfold fetch_by_prob. fold n.
    assert (Hb : Qle_bool 0 (p * n) = true) by (apply Qle_bool_iff; exact Hx0).
    assert (Hf : (Qfloor (p * n) <? 0)%Z = false) by (apply Z.ltb_ge; lia).
    rewrite Hb. cbv zeta beta iota. rewrite Hf. cbv beta iota. rewrite Hf.
    unfold py_index. rewrite Ev. reflexivity.
  - exfalso. apply nth_error_None in Ev. lia.
Qed.

(** [fetch_by_prob] with a probability in [[0, 1)] on a non-empty list
    returns the item at index [int(probability * len(value_list))], which is
    in bounds. *)
Theorem fetch_by_prob_in_bounds {A} (vs : list A) (p : Q) :
  0 <= p -> p < 1 -> vs <> [] ->
  exists k v, (k < length vs)%nat /\
    Z.of_nat k = Qfloor (p * inject_Z (Z.of_nat (length vs))) /\
    nth_error vs k = Some v /\ fetch_by_prob vs p = inr v.
Proof.
  exact (fetch_by_prob_floor vs p).
Qed.

Lemma fetch_by_prob_error {A} (vs : list A) (p : Q) :
  vs = [] \/ 1 <= p -> fetch_by_prob vs p = inl IndexError.
Proof.
  intros H. unfold fetch_by_prob.
  set (n := inject_Z (Z.of_nat (length vs))).
  assert (Hn : 0 <= n) by (unfold n; change 0 with (inject_Z 0); rewrite <- Zle_Qle; lia).
  assert (Hge : n <= p * n \/ vs = []).
  { destruct H as [->|H]; [right; reflexivity|left].
    rewrite <- (Qmult_1_l n) at 1. apply Qmult_le_compat_r; assumption. }
  assert (Hx0 : 0 <= p * n).
  { destruct Hge as [Hge| ->]; [eapply Qle_trans; eassumption|].
    unfold n; simpl. rewrite Qmult_0_r. apply Qle_refl. }
  assert (Hb : Qle_bool 0 (p * n) = true) by (apply Qle_bool_iff; exact Hx0).
  rewrite Hb. pose proof (Qfloor_nonneg _ Hx0) as Hi0.
  assert (Hf : (Qfloor (p * n) <? 0)%Z = false) by (apply Z.ltb_ge; lia).
  cbv zeta beta iota. rewrite Hf. cbv beta iota. rewrite Hf.
  unfold py_index. rewrite (proj2 (nth_error_None vs _)); [reflexivity|].
  destruct Hge as [Hge| ->]; [|simpl; lia].
  apply Qfloor_ge_Z in Hge. lia.
Qed.

(** [fetch_by_prob] raises [IndexError] on an empty list and for any
    probability of at least 1 (the index [int(p * len)] is then at least
    [len]). *)
Theorem fetch_by_prob_index_error {A} (vs : list A) (p : Q) :
  vs = [] \/ 1 <= p -> fetch_by_prob vs p = inl IndexError.
Proof.
  exact (fetch_by_prob_error vs p).
Qed.

(** The scan of [fetch_by_prob_list] from a running sum [acc]. *)
Lemma prob_scan_first_exceeding {A} (vs : list A) : forall ps acc r k,
  length vs = length ps -> (k < length vs)%nat ->
  r < fold_left Qplus (firstn (S k) ps) acc ->
  (forall j, (j < k)%nat -> fold_left Qplus (firstn (S j) ps) acc <= r) ->
  prob_scan vs ps acc r = nth_error vs k.
Proof.
  induction vs as [|v vs IH]; intros ps acc r k Hlen Hk Hlt Hprev; [simpl in Hk; lia|].
  destruct ps as [|p ps]; [discriminate|]. simpl in Hlen, Hk. simpl prob_scan.
  destruct k as [|k].
  - simpl in Hlt. unfold Qltb.
    replace (Qle_bool (acc + p) r) with false; [reflexivity|].
    symmetry. apply not_true_iff_false. rewrite Qle_bool_iff. intros Hc.
    apply (Qlt_irrefl r). eapply Qlt_le_trans; [exact Hlt|exact Hc].
  - assert (Hp : acc + p <= r) by exact (Hprev 0%nat ltac:(lia)).
    unfold Qltb. rewrite (proj2 (Qle_bool_iff _ _) Hp). simpl negb. cbv iota.
    apply IH; [lia|lia|exact Hlt|].
    intros j Hj. exact (Hprev (S j) ltac:(lia)).
Qed.

(** [fetch_by_prob_list] takes one draw [r] and returns the first value whose
    cumulative probability exceeds [r]. *)
Theorem fetch_by_prob_list_first_exceeding (draws : nat -> Q) {A} (vs : list A) (ps : list Q)
  (k : nat) (s : BS) :
  length vs = length ps -> (k < length vs)%nat ->
  draws (bs_rng s) < Qsum (firstn (S k) ps) ->
  (forall j, (j < k)%nat -> Qsum (firstn (S j) ps) <= draws (bs_rng s)) ->
  exists v, nth_error vs k = Some v /\
    fetch_by_prob_list draws vs ps s = inr (v, mkBS (S (bs_rng s)) (bs_blocks s)).
Proof.
  intros Hlen Hk Hlt Hprev.
  destruct (nth_error vs k) as [v|] eqn:Ev; [|apply nth_error_None in Ev; lia].
  exists v. split; [reflexivity|].
  unfold fetch_by_prob_list, bind, get_random, lift, fetch_by_prob_list_at.
  cbn [rng_pos rng_set BS_rng]. rewrite Hlen, Nat.eqb_refl.
  rewrite (prob_scan_first_exceeding vs ps 0 _ k Hlen Hk Hlt Hprev), Ev. reflexivity.
Qed.

(** [get_seed] lies in [[10000, 99999]] for a draw in [[0, 1)]. *)
Theorem get_seed_range (r : Q) :
  0 <= r -> r < 1 -> (10000 <= get_seed r <= 99999)%Z.
Proof.
  intros H0 H1. unfold get_seed, py_int.
  assert (Hx0 : 0 <= r * 90000) by (apply Qmult_le_0_compat; [exact H0|discriminate]).
  assert (Hx : r * 90000 < inject_Z 90000).
  { change (inject_Z 90000) with (1 * 90000). apply Qmult_lt_r; [reflexivity|exact H1]. }
  rewrite (proj2 (Qle_bool_iff _ _) Hx0).
  pose proof (Qfloor_nonneg _ Hx0). pose proof (Qfloor_lt_Z _ _ Hx). lia.
Qed.

(** ** [core/agent/block.py] *)

Lemma Qsum_acc (l : list Q) (a : Q) : fold_left Qplus l a == a + fold_left Qplus l 0.
Proof.
  revert a; induction l as [|x l IH]; intros a; simpl; [ring|].
  rewrite (IH (a + x)), (IH (0 + x)). ring.
Qed.

Lemma Qsum_cons (x : Q) (l : list Q) : Qsum (x :: l) == x + Qsum l.
Proof. unfold Qsum; simpl. rewrite Qsum_acc. ring. Qed.

Lemma init_block_facts (i : bid) (prev next : list bid) (sh : list Q) (k : kind) :
  (init_block i prev next sh k = inl ZeroDivisionError <-> sh <> [] /\ Qsum sh == 0) /\
  (sh = [] \/ ~ Qsum sh == 0 ->
   exists b, init_block i prev next sh k = inr b /\
     b_id b = i /\ b_prev b = prev /\ b_next b = next /\ b_shares b = sh /\
     b_variations b = length sh /\ b_ext b = 1 /\ b_int b = 1 /\ b_pending b = [] /\
     b_kind b = k /\
     (b_is_output b = true <-> next = []) /\ (b_is_input b = true <-> prev = [])).
Proof.
  unfold init_block. rewrite normalize_shares_eq. split.
  - split.
    + destruct sh as [|x sh']; [discriminate|].
      destruct (Qeq_bool (Qsum (x :: sh')) 0) eqn:E; [|discriminate].
      intros _. split; [discriminate|]. apply Qeq_bool_iff. exact E.
    + intros [Hne Hz]. destruct sh as [|x sh']; [congruence|].
      rewrite (proj2 (Qeq_bool_iff _ _) Hz). reflexivity.
  - intros Hsh. eexists. split.
    + destruct sh as [|x sh']; [reflexivity|].
      destruct Hsh as [Hsh|Hsh]; [discriminate|].
      replace (Qeq_bool (Qsum (x :: sh')) 0) with false; [reflexivity|].
      symmetry. apply not_true_iff_false. rewrite Qeq_bool_iff. exact Hsh.
    + cbn. do 9 (split; [reflexivity|]).
      split; [destruct next; split; congruence|destruct prev; split; congruence].
Qed.

(** [Block.__init__]: [_normalize_shares] raises [ZeroDivisionError] exactly
    when the shares list is non-empty and sums to 0 (an empty list is
    accepted: the loop body never runs); otherwise the block keeps the
    shares as given, has [variations = len(shares)], both execution
    probabilities 1, no buffered image ids, and is an output exactly when
    [next] is empty and an input exactly when [prev] is empty. *)
Theorem init_block_spec (i : bid) (prev next : list bid) (sh : list Q) (k : kind) :
  (init_block i prev next sh k = inl ZeroDivisionError <-> sh <> [] /\ Qsum sh == 0) /\
  (sh = [] \/ ~ Qsum sh == 0 ->
   exists b, init_block i prev next sh k = inr b /\
     b_id b = i /\ b_prev b = prev /\ b_next b = next /\ b_shares b = sh /\
     b_variations b = length sh /\ b_ext b = 1 /\ b_int b = 1 /\ b_pending b = [] /\
     b_kind b = k /\
     (b_is_output b = true <-> next = []) /\ (b_is_input b = true <-> prev = [])).
Proof.
  exact (init_block_facts i prev next sh k).
Qed.

(** [Augment.__init__]: a block is built only around a [Mosaic] object
    (inflation 0.25) or a [MixUp] object (inflation 0.5, with
    [0.4 <= lam <= 0.6]) of the named class; its [int_exe_prob] is either the
    given [float], which lies in [0, 1], or 1 for a value equal to 1, and its
    [ext_exe_prob] is 1. *)
Theorem init_augment_success (i : bid) (prev next : list bid) (sh : list Q) (cls : string)
  (p : pyval) (kw : kwargs) (b : Block) :
  init_augment i prev next sh cls p kw = inr b ->
  exists a, b_kind b = KAugment a /\ aug_class a = cls /\ b_ext b = 1 /\
    ((cls = "Mosaic" /\ aug_inflation a = 1 # 4) \/
     (cls = "MixUp" /\ aug_inflation a = 1 # 2 /\
      exists l, aug_params a = [l] /\ py_le (VFloat (2 # 5)) l = inr true /\
                py_le l (VFloat (3 # 5)) = inr true)) /\
    ((p = VFloat (b_int b) /\ 0 <= b_int b <= 1) \/ (py_eq p (VInt 1) = true /\ b_int b = 1)).
Proof.
  intros E. apply init_augment_inv in E as (ps & infl & q & Ec & Eq & ->).
  exists (mkAug cls ps infl). cbn. split; [reflexivity|]. split; [reflexivity|].
  split; [reflexivity|]. split.
  - destruct (construct_aug_inflation _ _ _ _ Ec) as [(-> & -> & _)|(-> & -> & H)].
    + left. auto.
    + right. auto.
  - exact (set_int_exe_prob_inv p q Eq).
Qed.

(** [Augment.__init__]: with admissible shares, an [int] execution
    probability other than 1 ([0] included) fails the setter's
    [isinstance(value, float) or value == 1] with [AssertionError], before
    the augmentation class is looked up. *)
Theorem init_augment_int_exe_prob (i : bid) (prev next : list bid) (sh : list Q)
  (cls : string) (z : Z) (kw : kwargs) :
  sh = [] \/ ~ Qsum sh == 0 -> z <> 1%Z ->
  init_augment i prev next sh cls (VInt z) kw = inl AssertionError.
Proof.
  intros Hsh Hz. unfold init_augment.
  assert (Hn : normalize_shares sh = inr sh).
  { rewrite normalize_shares_eq. destruct sh as [|x l]; [reflexivity|].
    destruct Hsh as [Hsh|Hsh]; [discriminate|].
    destruct (Qeq_bool (Qsum (x :: l)) 0) eqn:E; [|reflexivity].
    apply Qeq_bool_iff in E. contradiction. }
  rewrite Hn. unfold set_int_exe_prob, py_eq. cbn [py_num].
  destruct (Qeq_bool (inject_Z z) (inject_Z 1)) eqn:E; [|reflexivity].
  exfalso. apply Hz, inject_Z_injective, Qeq_bool_iff. exact E.
Qed.

(** [Input.__init__]: with admissible shares, a non-empty [filters] list
    whose length differs from the number of shares raises [AssertionError];
    otherwise the Source has no [prev], is an input, starts with [uses = 1]
    and no resolved share, filter or data count. *)
Theorem init_input_filters (i : bid) (next : list bid) (sh : list Q) (ds : string) (t : Q)
  (fs : option (list string)) :
  sh = [] \/ ~ Qsum sh == 0 ->
  ((exists b f, init_input i next sh ds t fs = inr b /\ b_prev b = [] /\ b_is_input b = true /\
       b_kind b = KInput f /\ i_uses f = 1%nat /\ i_share f = None /\ i_filter f = None /\
       i_n_data f = None) <->
   (forall l, fs = Some l -> l = [] \/ length l = length sh)) /\
  (forall l, fs = Some l -> l <> [] -> length l <> length sh ->
   init_input i next sh ds t fs = inl AssertionError).
Proof.
  intros Hsh.
  destruct (proj2 (init_block_facts i [] next sh (KInput (mkInputF ds t fs None None None 1))) Hsh)
    as [b [Eb [_ [Hp [_ [_ [Hv [_ [_ [_ [Hk [_ Hin]]]]]]]]]]]].
  unfold init_input. rewrite Eb. split; [split|].
  - intros [b' [f [E _]]] l ->. destruct l as [|x l]; [left; reflexivity|right].
    destruct (Nat.eqb_spec (length (x :: l)) (b_variations b)); [congruence|discriminate].
  - intros Hf.
    assert (Hok : exists b', match fs with
                             | Some ((_ :: _) as l) =>
                                 if Nat.eqb (length l) (b_variations b) then inr b else inl AssertionError
                             | _ => inr b end = inr b' /\ b' = b).
    { destruct fs as [[|x l]|]; try (eexists; split; reflexivity).
      destruct (Hf (x :: l) eq_refl) as [H|H]; [discriminate|].
      rewrite Hv, H, Nat.eqb_refl. eexists; split; reflexivity. }
    destruct Hok as [b' [E ->]]. exists b, (mkInputF ds t fs None None None 1).
    rewrite E. repeat split; auto. apply Hin. reflexivity.
  - intros l -> Hne Hl. destruct l as [|x l]; [congruence|].
    rewrite Hv. destruct (Nat.eqb_spec (length (x :: l)) (length sh)); [congruence|reflexivity].
Qed.

(** [Block.set(index)] on an [Augment]: [AssertionError] unless
    [index < variations]; [IndexError] when a non-output block has fewer
    [next] ids than [index + 1]; otherwise the block is narrowed to
    [next[index]] (an output keeps its [next]), resolves its share to
    [shares[index]] and multiplies [ext_exe_prob] by it, keeping its id,
    [prev], [int_exe_prob] and augmentation. *)
Theorem set_block_augment (b : Block) (a : Aug) (index : nat) :
  b_kind b = KAugment a ->
  ((b_variations b <= index)%nat -> set_block b index = inl AssertionError) /\
  ((index < b_variations b)%nat -> b_is_output b = false ->
   (length (b_next b) <= index)%nat -> set_block b index = inl IndexError) /\
  (forall sh, (index < b_variations b)%nat -> nth_error (b_shares b) index = Some sh ->
   b_is_output b = true \/ (index < length (b_next b))%nat ->
   exists b', set_block b index = inr b' /\ b_share b' = Some sh /\ b_ext b' = b_ext b * sh /\
     (if b_is_output b then b_next b' = b_next b
      else exists n, nth_error (b_next b) index = Some n /\ b_next b' = [n]) /\
     b_id b' = b_id b /\ b_prev b' = b_prev b /\ b_int b' = b_int b /\ b_kind b' = b_kind b).
Proof.
  intros Hk. unfold set_block. rewrite Hk. split; [|split].
  - intros H. replace (index <? b_variations b)%nat with false by (symmetry; apply Nat.ltb_ge; lia).
    reflexivity.
  - intros H Ho Hl. replace (index <? b_variations b)%nat with true by (symmetry; apply Nat.ltb_lt; lia).
    rewrite Ho. unfold py_index. rewrite (proj2 (nth_error_None _ _) Hl). reflexivity.
  - intros sh Hi Hs Hn. replace (index <? b_variations b)%nat with true by (symmetry; apply Nat.ltb_lt; lia).
    cbn [negb]. unfold py_index at 2. rewrite Hs.
    destruct (b_is_output b) eqn:Ho.
    + eexists. split; [reflexivity|]. cbn. repeat split; first [reflexivity | exact Hk].
    + destruct Hn as [Hn|Hn]; [discriminate|].
      destruct (nth_error (b_next b) index) as [n|] eqn:En; [|apply nth_error_None in En; lia].
      unfold py_index. rewrite En. eexists. split; [reflexivity|]. cbn.
      repeat split; try first [reflexivity | exact Hk]. exists n. split; reflexivity.
Qed.

(** [Input.set(index)]: the Source is narrowed to [next[index]], its data
    count becomes [n_total_data * shares[index]] and its filter
    [filters[index]] (when it has filters), while [ext_exe_prob] and the
    [Block] share are left as they are and [uses] is kept. *)
Theorem set_block_input (b : Block) (f : InputF) (index : nat) (n : bid) (sh : Q) :
  b_kind b = KInput f -> (index < b_variations b)%nat ->
  nth_error (b_next b) index = Some n -> nth_error (b_shares b) index = Some sh ->
  match i_filters f with Some ((_ :: _) as fs) => (index < length fs)%nat | _ => True end ->
  exists b' f', set_block b index = inr b' /\ b_kind b' = KInput f' /\ b_next b' = [n] /\
    b_ext b' = b_ext b /\ b_share b' = b_share b /\ b_id b' = b_id b /\
    i_share f' = Some sh /\ i_n_data f' = Some (i_n_total f * sh) /\ i_uses f' = i_uses f /\
    i_filter f' = match i_filters f with
                  | Some ((_ :: _) as fs) => nth_error fs index
                  | _ => i_filter f
                  end.
Proof.
  intros Hk Hi Hn Hs Hf. unfold set_block. rewrite Hk.
  replace (index <? b_variations b)%nat with true by (symmetry; apply Nat.ltb_lt; lia).
  cbn [negb]. unfold py_index at 1 2. rewrite Hn, Hs.
  destruct (i_filters f) as [[|x fs]|] eqn:Ef.
  - eexists; eexists; split; [reflexivity|]. cbn. repeat split; reflexivity.
  - destruct (nth_error (x :: fs) index) as [y|] eqn:Ey; [|apply nth_error_None in Ey; lia].
    unfold py_index. rewrite Ey.
    eexists; eexists; split; [reflexivity|]. cbn. repeat split; reflexivity.
  - eexists; eexists; split; [reflexivity|]. cbn. repeat split; reflexivity.
Qed.

(** [Blocks._is_unique] / [_get_duplicate_index]: a duplicate index points
    at the first stored block equal to the new one, and neither of the two
    is an [Input] ([Input.__eq__] is always [False]): Sources are never
    merged. *)
Theorem dup_index_first (bs : list Block) (b : Block) (k : nat) :
  dup_index bs b = Some k ->
  exists e, nth_error bs k = Some e /\ block_eqb e b = true /\
    is_Input e = false /\ is_Input b = false /\
    (forall j e', (j < k)%nat -> nth_error bs j = Some e' -> block_eqb e' b = false).
Proof.
  revert k. induction bs as [|x bs IH]; intros k H; [discriminate|]. simpl in H.
  destruct (block_eqb x b) eqn:Ex.
  - injection H as <-. exists x. split; [reflexivity|]. split; [exact Ex|].
    unfold block_eqb, is_Input in *. split; [|split].
    + destruct (b_kind x); [discriminate|reflexivity].
    + destruct (b_kind x), (b_kind b); try discriminate; reflexivity.
    + intros j e' Hj. lia.
  - destruct (dup_index bs b) as [k'|] eqn:E; [|discriminate]. injection H as <-.
    destruct (IH k' eq_refl) as [e [He [Hb [Hie [Hib Hprev]]]]].
    exists e. repeat split; auto.
    intros [|j] e' Hj Hj'; simpl in Hj'; [congruence|]. apply (Hprev j); [lia|exact Hj'].
Qed.

(** The deduplication key of [_build_from_block] is [Augment.__eq__]: the
    augmentation, [int_exe_prob] and [share]. It ignores the id, [prev],
    [next] and [ext_exe_prob]: two candidates that agree on the key get the
    same duplicate index, whatever their successors. *)
Theorem dup_index_ignores_links (bs : list Block) (b1 b2 : Block) :
  b_kind b1 = b_kind b2 -> b_int b1 = b_int b2 -> b_share b1 = b_share b2 ->
  dup_index bs b1 = dup_index bs b2.
Proof.
  intros Hk Hi Hs. induction bs as [|x bs IH]; [reflexivity|]. simpl.
  assert (E : block_eqb x b1 = block_eqb x b2) by (unfold block_eqb; rewrite Hk, Hi, Hs; reflexivity).
  rewrite E, IH. reflexivity.
Qed.

(** [n_total_data] of [_set_ipt_blocks_exe_prob]. *)
Definition n_total_data (bs : list Block) : Q :=
  Qsum (map (fun b => match b_kind b with KInput f => i_n_total f | _ => 0 end)
            (get_input_blocks bs)).

Lemma Qsum_ext {A} (f g : A -> Q) (l : list A) :
  (forall x, In x l -> f x == g x) -> Qsum (map f l) == Qsum (map g l).
Proof.
  induction l as [|x l IH]; intros H; [reflexivity|]. simpl map.
  rewrite !Qsum_cons, (H x (or_introl eq_refl)), IH; [reflexivity|].
  intros y Hy. apply H. right; exact Hy.
Qed.

Lemma Qsum_div {A} (f : A -> Q) (l : list A) (t : Q) :
  ~ t == 0 -> Qsum (map (fun x => f x / t) l) == Qsum (map f l) / t.
Proof.
  intros Ht. induction l as [|x l IH]; simpl map; [unfold Qsum; simpl; field; exact Ht|].
  rewrite !Qsum_cons, IH. field. exact Ht.
Qed.

Definition ipt_scale (t : Q) (b : Block) : Block :=
  match b_kind b with
  | KInput f => set_ext (b_ext b * (i_n_total f / t)) b
  | KAugment _ => b
  end.

Lemma set_ipt_map (rbs : list Block) :
  ~ n_total_data rbs == 0 ->
  set_ipt_blocks_exe_prob rbs = inr (map (ipt_scale (n_total_data rbs)) rbs).
Proof.
  intros Ht. unfold set_ipt_blocks_exe_prob. cbv zeta. fold (n_total_data rbs).
  assert (Hz : Qeq_bool (n_total_data rbs) 0 = false)
    by (apply not_true_iff_false; rewrite Qeq_bool_iff; exact Ht).
  revert Hz. generalize (n_total_data rbs) as t. intros t Hz. clear Ht.
  induction rbs as [|b bs IH]; [reflexivity|]. cbn [fold_right map]. rewrite IH.
  unfold ipt_scale, pydiv. destruct (b_kind b); [rewrite Hz|]; reflexivity.
Qed.

Lemma ipt_scale_kind t b : b_kind (ipt_scale t b) = b_kind b.
Proof. unfold ipt_scale. destruct (b_kind b) eqn:E; cbn; congruence. Qed.

Lemma ipt_scale_id t b : b_id (ipt_scale t b) = b_id b.
Proof. unfold ipt_scale. destruct (b_kind b); reflexivity. Qed.

Lemma get_input_blocks_map t bs :
  get_input_blocks (map (ipt_scale t) bs) = map (ipt_scale t) (get_input_blocks bs).
Proof.
  induction bs as [|b bs IH]; [reflexivity|]. unfold get_input_blocks in *. simpl.
  unfold is_Input at 1. rewrite ipt_scale_kind. fold (is_Input b).
  destruct (is_Input b); simpl; rewrite IH; reflexivity.
Qed.

(** [_set_ipt_blocks_exe_prob]: when every Source still has
    [ext_exe_prob = 1] and the Sources' [n_total_data] do not sum to zero,
    the Sources' execution probabilities become their data shares and sum to
    one; no block is added, dropped or renamed. *)
Theorem set_ipt_blocks_exe_prob_sum (rbs : list Block) :
  Forall (fun b => b_ext b == 1) (get_input_blocks rbs) -> ~ n_total_data rbs == 0 ->
  exists l, set_ipt_blocks_exe_prob rbs = inr l /\ map b_id l = map b_id rbs /\
    Qsum (map b_ext (get_input_blocks l)) == 1.
Proof.
  intros Hone Ht. exists (map (ipt_scale (n_total_data rbs)) rbs).
  split; [apply set_ipt_map; exact Ht|]. split.
  - rewrite map_map. apply map_ext. apply ipt_scale_id.
  - rewrite get_input_blocks_map, map_map.
    rewrite (Qsum_ext _ (fun b => (match b_kind b with KInput f => i_n_total f | _ => 0 end)
                                  / n_total_data rbs)).
    + rewrite Qsum_div by exact Ht. unfold n_total_data. field.
      exact Ht.
    + intros b Hb. rewrite Forall_forall in Hone. specialize (Hone b Hb).
      unfold get_input_blocks in Hb. apply filter_In in Hb. destruct Hb as [_ Hi].
      unfold is_Input in Hi. unfold ipt_scale. destruct (b_kind b); [|discriminate].
      cbn. rewrite Hone. field. exact Ht.
Qed.

(** [_set_ipt_blocks_exe_prob] with Sources whose [n_total_data] sum to
    zero (for instance all empty datasets) fails with [ZeroDivisionError]. *)
Theorem set_ipt_blocks_exe_prob_zero (rbs : list Block) :
  get_input_blocks rbs <> [] -> n_total_data rbs == 0 ->
  set_ipt_blocks_exe_prob rbs = inl ZeroDivisionError.
Proof.
  intros Hne Ht. unfold set_ipt_blocks_exe_prob. cbv zeta. fold (n_total_data rbs).
  assert (Hz : Qeq_bool (n_total_data rbs) 0 = true) by (apply Qeq_bool_iff; exact Ht).
  revert Hz Hne. generalize (n_total_data rbs) as t. intros t Hz. clear Ht.
  enough (E : fold_right
    (fun b acc =>
       match acc with
       | inl e => inl e
       | inr l =>
           match b_kind b with
           | KInput f =>
               match pydiv (i_n_total f) t with
               | inl e => inl e
               | inr w => inr (set_ext (b_ext b * w) b :: l)
               end
           | KAugment _ => inr (b :: l)
           end
       end) (inr []) rbs =
    if existsb is_Input rbs then inl ZeroDivisionError else inr rbs).
  { rewrite E. intros Hne. destruct (existsb is_Input rbs) eqn:Ex; [reflexivity|].
    exfalso. apply Hne. unfold get_input_blocks. clear -Ex.
    induction rbs as [|b bs IH]; [reflexivity|]. simpl in *.
    apply orb_false_iff in Ex. destruct Ex as [E1 E2]. rewrite E1. exact (IH E2). }
  induction rbs as [|b bs IH]; [reflexivity|]. cbn [fold_right existsb]. rewrite IH.
  unfold is_Input at 2. destruct (b_kind b); cbn [orb].
  - destruct (existsb is_Input bs); [reflexivity|]. unfold pydiv. rewrite Hz. reflexivity.
  - destruct (existsb is_Input bs); reflexivity.
Qed.

(** [Blocks.root]'s weights [prev_ext_exe_probs / sum]: when the sum is not
    zero they are one weight per predecessor and sum to one; a non-empty
    list summing to zero raises [ZeroDivisionError]. *)
Theorem prev_weights_normalized (b : Block) (ps : list Q) :
  b_prev_ext b = Some ps ->
  (~ Qsum ps == 0 -> exists ws, prev_weights b = inr ws /\ length ws = length ps /\ Qsum ws == 1) /\
  (ps <> [] -> Qsum ps == 0 -> prev_weights b = inl ZeroDivisionError).
Proof.
  intros Hp. unfold prev_weights. rewrite Hp. split.
  - intros Hs. assert (Hz : Qeq_bool (Qsum ps) 0 = false)
      by (apply not_true_iff_false; rewrite Qeq_bool_iff; exact Hs).
    assert (E : forall l, mapE (fun p => pydiv p (Qsum ps)) l = inr (map (fun p => p / Qsum ps) l)).
    { induction l as [|x l IH]; [reflexivity|]. simpl. unfold pydiv at 1. rewrite Hz, IH. reflexivity. }
    eexists. split; [apply E|]. split; [apply length_map|].
    rewrite (Qsum_div (fun p => p) ps _ Hs), map_id. field. exact Hs.
  - intros Hne Hs. assert (Hz : Qeq_bool (Qsum ps) 0 = true) by (apply Qeq_bool_iff; exact Hs).
    destruct ps as [|x l]; [contradiction|]. simpl. unfold pydiv at 1. rewrite Hz. reflexivity.
Qed.

(** ** The shape of a compiled graph *)

(** A compiled block: at most one successor, and a fresh id of its own. *)
Definition chain_block (b : Block) : Prop :=
  (length (b_next b) <= 1)%nat /\ exists n, b_id b = New n.

(** A block flagged as an output has no [next] ids, as [Block.__init__]
    sets [is_output = not next_]. *)
Definition sink_consistent (b : Block) : Prop := b_is_output b = true -> b_next b = [].

Lemma Forall_app_one {A} (P : A -> Prop) l x : Forall P l -> P x -> Forall P (l ++ [x]).
Proof. intros; apply Forall_app; auto. Qed.
Lemma Forall_replace_block (P : Block -> Prop) l b :
  Forall P l -> P b -> Forall P (replace_block l b).
Proof. induction 1; intros; simpl; [constructor|]. destruct bid_eqb; auto. Qed.
Lemma Forall_update_nth_gen {A} (P : A -> Prop) l n x :
  Forall P l -> P x -> Forall P (update_nth l n x).
Proof. intros H; revert n; induction H; intros [|n] Hx; simpl; auto. Qed.
Lemma get_block_by_id_In l i b : get_block_by_id l i = Some b -> In b l.
Proof.
  induction l as [|x l IH]; simpl; [discriminate|].
  destruct bid_eqb; [intros E; injection E as <-; left; reflexivity|intros E; right; auto].
Qed.
Lemma Forall_gbi (P : Block -> Prop) l i b : get_block_by_id l i = Some b -> Forall P l -> P b.
Proof. intros E H. eapply Forall_forall; [exact H|]. eapply get_block_by_id_In; exact E. Qed.
Lemma Forall_py_index {A} (P : A -> Prop) l n x : py_index l n = inr x -> Forall P l -> P x.
Proof.
  unfold py_index; intros E H. destruct (nth_error l n) eqn:En; [|discriminate].
  injection E as <-. eapply Forall_forall; [exact H|]. eapply nth_error_In; eauto.
Qed.

Lemma set_block_chain raw n i b :
  set_block (set_id (New n) raw) i = inr b -> sink_consistent raw -> chain_block b.
Proof.
  unfold set_block, sink_consistent, chain_block. intros E Hr.
  destruct negb; [discriminate|]. cbn [b_kind b_is_output b_next b_shares b_id set_id] in *.
  destruct (b_kind raw).
  - destruct (py_index (b_next raw) i), (py_index (b_shares raw) i); try discriminate.
    destruct (i_filters f) as [[|x xs]|]; try (injection E as <-; cbn; split; [lia|eauto]).
    destruct py_index; [discriminate|]. injection E as <-. cbn. split; [lia|eauto].
  - destruct (b_is_output raw) eqn:Eo.
    + destruct (py_index (b_shares raw) i); [discriminate|]. injection E as <-. cbn.
      rewrite (Hr eq_refl). split; [cbn; lia|eauto].
    + destruct (py_index (b_next raw) i), (py_index (b_shares raw) i); try discriminate.
      injection E as <-. cbn. split; [lia|eauto].
Qed.

Lemma chain_set_next x b : chain_block b -> chain_block (set_next [x] b).
Proof. intros [_ H]. split; [cbn; lia|exact H]. Qed.
Lemma chain_set_prev l b : chain_block b -> chain_block (set_prev l b).
Proof. auto. Qed.
Lemma chain_set_ext v b : chain_block b -> chain_block (set_ext v b).
Proof. auto. Qed.
Lemma chain_set_prev_ext l b : chain_block b -> chain_block (set_prev_ext l b).
Proof. auto. Qed.

Ltac solve_chain :=
  repeat match goal with
  | |- Forall chain_block (_ ++ [_]) => apply Forall_app_one
  | |- Forall chain_block (replace_block _ _) => apply Forall_replace_block
  | |- Forall chain_block (update_nth _ _ _) => apply Forall_update_nth_gen
  | |- chain_block (set_next [_] _) => apply chain_set_next
  | |- chain_block (set_prev _ _) => apply chain_set_prev
  | |- chain_block (set_ext _ _) => apply chain_set_ext
  | |- chain_block (set_prev_ext _ _) => apply chain_set_prev_ext
  | H : py_index _ _ = inr ?b |- chain_block ?b => apply (Forall_py_index _ _ _ _ H)
  | H : get_block_by_id _ _ = Some ?b |- chain_block ?b => apply (Forall_gbi _ _ _ _ H)
  | H : get_block_by_id _ _ = Some ?b |- sink_consistent ?b => apply (Forall_gbi _ _ _ _ H)
  | H : set_block (set_id _ _) _ = inr ?b |- chain_block ?b => apply (set_block_chain _ _ _ _ H)
  end; try assumption.

Lemma bfb_chain (fuel : nat) : forall raw rbs si pid s u s',
  Forall sink_consistent rbs -> sink_consistent raw -> Forall chain_block (bs_blocks s) ->
  build_from_block fuel raw rbs si pid s = inr (u, s') -> Forall chain_block (bs_blocks s').
Proof.
  induction fuel as [|f IH]; intros raw rbs si pid s u s' Hr Hraw Hs H; [discriminate|].
  cbn [build_from_block] in H.
  cbv beta iota delta [bind new_id ret lift get_blocks get put_blocks put raise rng_pos rng_set BS_rng] in H.
  cbn [bs_blocks bs_rng] in H.
  bust.
  all: repeat match goal with
       | H : build_from_block _ ?r _ _ _ ?s1 = inr (_, ?s2) |- _ =>
           assert (Forall chain_block (bs_blocks s2))
             by (cbn [bs_blocks bs_rng] in *; eapply IH; [ | | | exact H]; cbn [bs_blocks bs_rng]; solve_chain);
           clear H
       end.
  all: cbn [bs_blocks bs_rng] in *; solve_chain.
Qed.

Lemma mapM_inv {S A B} (Inv : S -> Prop) (f : A -> M S B) (l : list A) :
  (forall x s y s', In x l -> Inv s -> f x s = inr (y, s') -> Inv s') ->
  forall s ys s', Inv s -> mapM f l s = inr (ys, s') -> Inv s'.
Proof.
  induction l as [|x l IH]; intros Hf s ys s' Hs E; cbn [mapM] in E; unfold bind, ret in E.
  - injection E as <- <-; exact Hs.
  - destruct (f x s) as [|[y s1]] eqn:E1; [discriminate|].
    destruct (mapM f l s1) as [|[zs s2]] eqn:E2; [discriminate|]. injection E as <- <-.
    eapply IH; [intros; eapply Hf; eauto; right; assumption|eapply Hf; eauto; left; reflexivity|exact E2].
Qed.

Lemma iterM_inv {S A} (Inv : S -> Prop) (f : A -> M S unit) (l : list A) :
  (forall x s y s', In x l -> Inv s -> f x s = inr (y, s') -> Inv s') ->
  forall s u s', Inv s -> iterM f l s = inr (u, s') -> Inv s'.
Proof.
  intros Hf s u s' Hs E. unfold iterM, bind, ret in E.
  destruct (mapM f l s) as [|[ys s1]] eqn:E1; [discriminate|]. injection E as <- <-.
  eapply mapM_inv; eauto.
Qed.

Lemma calc_chain (fuel : nat) : forall i s u s',
  Forall chain_block (bs_blocks s) ->
  calc_ext_exe_probs fuel i s = inr (u, s') -> Forall chain_block (bs_blocks s').
Proof.
  induction fuel as [|f IH]; intros i s u s' Hs H; [discriminate|].
  cbn [calc_ext_exe_probs] in H.
  cbv beta iota delta [bind ret lift get_blocks get put_blocks put raise assert] in H.
  cbn [bs_blocks bs_rng] in H.
  bust.
  all: repeat match goal with
       | H : iterM (calc_ext_exe_probs _) _ ?s1 = inr (_, ?s2) |- _ =>
           assert (Forall chain_block (bs_blocks s2))
             by (eapply (iterM_inv (fun s => Forall chain_block (bs_blocks s))); [|idtac|exact H];
                 [intros; eapply IH; eauto|assumption]);
           clear H
       end.
  all: cbn [bs_blocks bs_rng] in *; solve_chain.
Qed.

Lemma init_block_sink_consistent i p nx sh k b :
  init_block i p nx sh k = inr b -> sink_consistent b /\ b_next b = nx.
Proof.
  unfold init_block, sink_consistent; intros E. destruct normalize_shares; [discriminate|].
  injection E as <-; cbn. split; [destruct nx; [auto|discriminate]|reflexivity].
Qed.

Lemma dict_to_block_sink_consistent r b : dict_to_block_update r = inr b -> sink_consistent b.
Proof.
  unfold dict_to_block_update; intros E.
  destruct normalize_shares as [|sh]; [discriminate|].
  destruct (r_params r).
  - unfold init_input in E. destruct init_block as [|b1] eqn:E1; [discriminate|].
    apply init_block_sink_consistent in E1 as [Hb1 _].
    destruct filters as [[|x xs]|]; try (injection E as <-; exact Hb1).
    destruct Nat.eqb; [injection E as <-; exact Hb1|discriminate].
  - apply init_augment_inv in E as (ps & infl & q & _ & _ & ->).
    unfold sink_consistent; cbn. destruct (map Raw (r_next r)); [auto|discriminate].
Qed.

Lemma mapE_Forall {A B} (f : A -> exn + B) (P : B -> Prop) l ys :
  (forall x y, f x = inr y -> P y) -> mapE f l = inr ys -> Forall P ys.
Proof.
  intros Hf; revert ys; induction l as [|x l IH]; intros ys E; simpl in E.
  - injection E as <-; constructor.
  - destruct (f x) as [|y] eqn:Ex; [discriminate|].
    destruct (mapE f l) as [|zs]; [discriminate|]. injection E as <-.
    constructor; [eapply Hf; eauto|auto].
Qed.

Lemma set_ipt_Forall (P : Block -> Prop) rbs l :
  (forall v b, P b -> P (set_ext v b)) ->
  Forall P rbs -> set_ipt_blocks_exe_prob rbs = inr l -> Forall P l.
Proof.
  intros HP. unfold set_ipt_blocks_exe_prob.
  generalize (Qsum (map (fun b => match b_kind b with KInput f => i_n_total f | _ => 0 end)
                      (get_input_blocks rbs))) as t.
  intros t H; revert l; induction H as [|b bs Hb H IH]; intros l E; simpl in E.
  - injection E as <-; constructor.
  - destruct fold_right as [|l0] eqn:E0; [discriminate|].
    destruct (b_kind b).
    + destruct pydiv; [discriminate|]. injection E as <-. constructor; auto.
    + injection E as <-. constructor; auto.
Qed.

(** [Blocks.build]: every block of a compiled graph has at most one [next]
    id and a fresh id: each split is unfolded into one block per branch
    ([Block.set] narrows [next] to [next[index]]), and no raw block is
    stored as it is. *)
Theorem compile_chain_blocks (rng : nat) (raws : list RawNode) (bs : list Block) :
  compile rng raws = inr bs -> Forall chain_block bs.
Proof.
  unfold compile, build, bind, lift, get_blocks, get, ret. intros E.
  destruct (mapE dict_to_block_update raws) as [e|rbs] eqn:E1; [discriminate|].
  destruct (set_ipt_blocks_exe_prob rbs) as [e|rbs'] eqn:E2; [discriminate|].
  assert (Hr : Forall sink_consistent rbs').
  { eapply set_ipt_Forall; [|eapply mapE_Forall; [apply dict_to_block_sink_consistent|exact E1]|exact E2].
    intros v b Hb; exact Hb. }
  destruct iterM as [e|[u s]] eqn:E3; [discriminate|].
  cbv beta iota delta [bind get ret] in E.
  destruct (get_output_blocks (bs_blocks s)) as [e|outs]; [discriminate|].
  destruct (iterM (fun b => calc_ext_exe_probs recursion_limit (b_id b)) outs s) as [|[u2 s2]] eqn:E4;
    [discriminate|]. injection E as <-.
  assert (Hs : Forall chain_block (bs_blocks s)).
  { refine (iterM_inv (fun s => Forall chain_block (bs_blocks s)) _ _ _ _ _ _ _ E3);
      [|constructor].
    intros b s0 y s1 Hin H0 H1. eapply bfb_chain; [exact Hr| |exact H0|exact H1].
    apply filter_In in Hin as [Hin _]. eapply Forall_forall; [exact Hr|exact Hin]. }
  refine (iterM_inv (fun s => Forall chain_block (bs_blocks s)) _ _ _ _ _ _ Hs E4).
  intros b s0 y s1 _ H0 H1. eapply calc_chain; [exact H0|exact H1].
Qed.

(** ** [core/agent/executor.py] *)

Section ExecutorFacts.
Variable draws : nat -> Q.
Variable D : Type.
Variable apply : Aug -> Arg D -> D.

Lemma key_eqb_eq (a b : key) : key_eqb a b = true <-> a = b.
Proof.
  destruct a, b; cbn; split; intros H; try discriminate; try reflexivity.
  - apply Nat.eqb_eq in H; subst; reflexivity.
  - injection H as ->. apply Nat.eqb_refl.
Qed.

Lemma key_eqb_neq (a b : key) : a <> b -> key_eqb a b = false.
Proof. intros H. apply not_true_iff_false. rewrite key_eqb_eq. exact H. Qed.

Lemma dlookup_dset_eq (l : list (key * D)) k v : dlookup D (dset D l k v) k = Some v.
Proof.
  induction l as [|[k' v'] l IH]; cbn.
  - rewrite (proj2 (key_eqb_eq k k) eq_refl). reflexivity.
  - destruct (key_eqb k k') eqn:E; cbn.
    + rewrite (proj2 (key_eqb_eq k k) eq_refl). reflexivity.
    + rewrite E. exact IH.
Qed.

Lemma dlookup_dset_neq (l : list (key * D)) k k2 v :
  k2 <> k -> dlookup D (dset D l k v) k2 = dlookup D l k2.
Proof.
  intros Hn. induction l as [|[k' v'] l IH]; cbn.
  - rewrite key_eqb_neq by exact Hn. reflexivity.
  - destruct (key_eqb k k') eqn:E; cbn.
    + apply key_eqb_eq in E; subst k'. rewrite key_eqb_neq by exact Hn. reflexivity.
    + destruct (key_eqb k2 k'); [reflexivity|exact IH].
Qed.

Lemma dlookup_None_notin (l : list (key * D)) k : dlookup D l k = None -> ~ In k (map fst l).
Proof.
  induction l as [|[k' v'] l IH]; cbn; [auto|].
  destruct (key_eqb k k') eqn:E; [discriminate|]. intros H [->|Hin].
  - rewrite (proj2 (key_eqb_eq k k) eq_refl) in E. discriminate.
  - exact (IH H Hin).
Qed.

Lemma notin_dlookup_None (l : list (key * D)) k : ~ In k (map fst l) -> dlookup D l k = None.
Proof.
  induction l as [|[k' v'] l IH]; cbn; [auto|]. intros H.
  rewrite key_eqb_neq by (intros ->; apply H; left; reflexivity).
  apply IH. intros Hin; apply H; right; exact Hin.
Qed.

Lemma dset_keys (l : list (key * D)) k v :
  NoDup (map fst l) -> NoDup (map fst (dset D l k v)).
Proof.
  induction l as [|[k' v'] l IH]; cbn; intros H.
  - constructor; [auto|constructor].
  - inversion H as [|? ? Hn Hd]; subst. destruct (key_eqb k k') eqn:E; cbn.
    + apply key_eqb_eq in E; subst. constructor; assumption.
    + constructor; [|apply IH; exact Hd].
      intros Hin. apply Hn.
      assert (Hk : forall l : list (key * D), In k' (map fst (dset D l k v)) -> k' = k \/ In k' (map fst l)).
      { clear. induction l as [|[a b] l IH]; cbn; [intros [H|[]]; left; congruence|].
        destruct (key_eqb k a) eqn:E; cbn; intros [H|H].
        - apply key_eqb_eq in E. left; congruence.
        - right; right; exact H.
        - right; left; exact H.
        - destruct (IH H); [left|right; right]; assumption. }
      destruct (Hk l Hin) as [->|Hi]; [|exact Hi].
      rewrite (proj2 (key_eqb_eq k k) eq_refl) in E. discriminate.
Qed.

Lemma ddel_incl (l : list (key * D)) k l' : ddel D l k = Some l' -> incl l' l.
Proof.
  revert l'. induction l as [|[k' v'] l IH]; cbn; intros l' E; [discriminate|].
  destruct (key_eqb k k').
  - injection E as <-. intros x Hx; right; exact Hx.
  - destruct (ddel D l k) as [l0|] eqn:E0; [|discriminate]. injection E as <-.
    intros x [Hx|Hx]; [left; exact Hx|right; apply (IH l0 eq_refl); exact Hx].
Qed.

Lemma ddel_None (l : list (key * D)) k : ddel D l k = None <-> dlookup D l k = None.
Proof.
  induction l as [|[k' v'] l IH]; cbn; [tauto|].
  destruct (key_eqb k k'); [split; discriminate|].
  destruct (ddel D l k); cbn; rewrite <- IH; split; intros; congruence.
Qed.

(** Deleting a present key of a dict without duplicate keys. *)
Lemma ddel_spec (l : list (key * D)) k :
  NoDup (map fst l) -> dlookup D l k <> None ->
  exists l', ddel D l k = Some l' /\ dlookup D l' k = None /\ NoDup (map fst l') /\
    forall k2, k2 <> k -> dlookup D l' k2 = dlookup D l k2.
Proof.
  induction l as [|[k' v'] l IH]; cbn; intros Hd Hl; [congruence|].
  inversion Hd as [|? ? Hn Hd']; subst.
  destruct (key_eqb k k') eqn:E.
  - apply key_eqb_eq in E; subst k'. exists l. split; [reflexivity|]. split; [|split].
    + apply notin_dlookup_None; exact Hn.
    + exact Hd'.
    + intros k2 Hk2. rewrite key_eqb_neq by exact Hk2. reflexivity.
  - destruct (IH Hd' Hl) as [l' [E1 [E2 [E3 E4]]]]. rewrite E1.
    exists ((k', v') :: l'). split; [reflexivity|]. split; [|split].
    + cbn. rewrite E. exact E2.
    + cbn. constructor; [|exact E3]. intros Hin. apply Hn.
      apply in_map_iff in Hin as [[a b] [Ha Hin]]. cbn in Ha; subst a.
      apply (in_map fst l (k', b)). exact (ddel_incl l k l' E1 _ Hin).
    + intros k2 Hk2. cbn. destruct (key_eqb k2 k'); [reflexivity|exact (E4 k2 Hk2)].
Qed.

(** Writing [new] then deleting [old] moves the value at [old] to [new]. *)
Lemma move_spec (l : list (key * D)) (old new : key) (d v : D) :
  NoDup (map fst l) -> dlookup D l old = Some d -> old <> new ->
  exists l', ddel D (dset D l new v) old = Some l' /\
    dlookup D l' new = Some v /\ dlookup D l' old = None /\ NoDup (map fst l') /\
    forall k, k <> old -> k <> new -> dlookup D l' k = dlookup D l k.
Proof.
  intros Hd Ho Hne.
  destruct (ddel_spec (dset D l new v) old) as [l' [E1 [E2 [E3 E4]]]].
  - apply dset_keys; exact Hd.
  - rewrite dlookup_dset_neq by exact Hne. congruence.
  - exists l'. split; [exact E1|]. split; [|split; [exact E2|split; [exact E3|]]].
    + rewrite E4 by (intros ->; exact (Hne eq_refl)). apply dlookup_dset_eq.
    + intros k Hk1 Hk2. rewrite E4 by exact Hk1. apply dlookup_dset_neq; exact Hk2.
Qed.

(** [Executor._exec_input_block]: the Source's sample moves from [data_id]
    to [new_data_id]: the new key holds the same sample, the old key is
    gone, every other entry of [self.__data] is untouched and no random
    number is drawn. *)
Theorem exec_input_block_moves (b : Block) (old new : nat) (s : Ex D) (d : D) :
  is_Input b = true -> NoDup (map fst (ex_data D s)) ->
  dlookup D (ex_data D s) (KData old) = Some d -> old <> new ->
  exists l', exec_input_block D b old new s = inr (tt, mkEx D (ex_rng D s) (ex_blocks D s) l' (ex_path D s)) /\
    dlookup D l' (KData new) = Some d /\ dlookup D l' (KData old) = None /\ NoDup (map fst l') /\
    forall k, k <> KData old -> k <> KData new -> dlookup D l' k = dlookup D (ex_data D s) k.
Proof.
  intros Hi Hd Ho Hne.
  destruct (move_spec (ex_data D s) (KData old) (KData new) d d Hd Ho) as [l' [E1 R]];
    [congruence|].
  exists l'. split; [|exact R].
  unfold exec_input_block, assert, bind, ret, data_get, data_set, data_del. rewrite Hi, Ho.
  cbn [ex_data ex_rng ex_blocks ex_path]. rewrite E1. reflexivity.
Qed.

(** [Executor._exec_input_block] errors: [AssertionError] on an [Augment],
    [KeyError] when [data_id] holds no sample. *)
Theorem exec_input_block_errors (b : Block) (old new : nat) (s : Ex D) :
  (is_Input b = false -> exec_input_block D b old new s = inl AssertionError) /\
  (dlookup D (ex_data D s) (KData old) = None -> exec_input_block D b old new s =
     if is_Input b then inl KeyError else inl AssertionError).
Proof.
  unfold exec_input_block, assert, bind, ret, raise, data_get. split.
  - intros H. rewrite H. reflexivity.
  - intros H. destruct (is_Input b); [rewrite H|]; reflexivity.
Qed.

(** [Executor._exec_augment_block] for a block with [inflation >= 1]: one
    draw decides; the block's augmentation is applied to the sample at
    [data_id] when the draw is below [int_exe_prob], otherwise the sample is
    copied; either way it is stored under [new_data_id] and [data_id] is
    deleted, the rest of [self.__data] being untouched. *)
Theorem exec_augment_block_step (b : Block) (a : Aug) (old new : nat) (s : Ex D) (d : D) :
  b_kind b = KAugment a -> 1 <= aug_inflation a -> NoDup (map fst (ex_data D s)) ->
  dlookup D (ex_data D s) (KData old) = Some d -> old <> new ->
  exists l', exec_augment_block draws D apply b old new s =
               inr (b, mkEx D (S (ex_rng D s)) (ex_blocks D s) l' (ex_path D s)) /\
    dlookup D l' (KData new) =
      Some (if Qltb (draws (ex_rng D s)) (b_int b) then apply a (One D d) else d) /\
    dlookup D l' (KData old) = None /\ NoDup (map fst l') /\
    forall k, k <> KData old -> k <> KData new -> dlookup D l' k = dlookup D (ex_data D s) k.
Proof.
  intros Hk Hinf Hd Ho Hne.
  destruct (move_spec (ex_data D s) (KData old) (KData new) d
              (if Qltb (draws (ex_rng D s)) (b_int b) then apply a (One D d) else d) Hd Ho)
    as [l' [E1 R]]; [congruence|].
  exists l'. split; [|exact R].
  assert (Hq : Qltb (inflation b) 1 = false).
  { unfold Qltb, inflation. rewrite Hk. apply negb_false_iff, Qle_bool_iff. exact Hinf. }
  cbv beta iota delta [exec_augment_block is_executed get_random bind ret data_get data_set data_del
                       rng_pos rng_set Ex_rng].
  destruct (Qltb (draws (ex_rng D s)) (b_int b)); [rewrite Hq|]; cbv beta iota;
    cbn [ex_data ex_rng ex_blocks ex_path]; rewrite Ho; cbn [ex_data ex_rng ex_blocks ex_path].
  - unfold execute. rewrite Hk. rewrite E1. reflexivity.
  - rewrite E1. reflexivity.
Qed.

Lemma Forall2_in_left {A B} (R : A -> B -> Prop) xs ys x :
  Forall2 R xs ys -> In x xs -> exists y, R x y.
Proof.
  induction 1 as [|a b xs ys Hab H IH]; [intros []|]. intros [<-|Hx]; [eauto|exact (IH Hx)].
Qed.

Lemma mapM_data_get (s : Ex D) (ids : list nat) (ds : list D) :
  Forall2 (fun i d => dlookup D (ex_data D s) (KData i) = Some d) ids ds ->
  mapM (fun i => data_get D (KData i)) ids s = inr (ds, s).
Proof.
  induction 1 as [|i d ids ds Hi H IH]; [reflexivity|].
  cbn [mapM]. unfold bind at 1. unfold data_get at 1. rewrite Hi.
  unfold bind. rewrite IH. reflexivity.
Qed.

Lemma mapM_data_del (r : nat) (bl : list Block) (p : option Path) (ids : list nat) :
  NoDup ids -> forall l : list (key * D),
  NoDup (map fst l) -> (forall i, In i ids -> dlookup D l (KData i) <> None) ->
  exists us l', mapM (fun i => data_del D (KData i)) ids (mkEx D r bl l p) = inr (us, mkEx D r bl l' p) /\
    (forall i, In i ids -> dlookup D l' (KData i) = None) /\ NoDup (map fst l') /\
    (forall k, (forall i, In i ids -> k <> KData i) -> dlookup D l' k = dlookup D l k).
Proof.
  induction 1 as [|i ids Hni Hnd IH]; intros l Hd Hin.
  - exists [], l. split; [reflexivity|]. split; [intros i []|]. split; [exact Hd|reflexivity].
  - destruct (ddel_spec l (KData i) Hd (Hin i (or_introl eq_refl))) as [l1 [E1 [E2 [E3 E4]]]].
    destruct (IH l1 E3) as [us [l' [F1 [F2 [F3 F4]]]]].
    { intros j Hj. rewrite E4 by (intros Hk; injection Hk as ->; exact (Hni Hj)).
      apply Hin. right; exact Hj. }
    exists (tt :: us), l'. split; [|split; [|split]].
    + cbn [mapM]. unfold bind at 1. unfold data_del at 1. cbn [ex_data ex_rng ex_blocks ex_path].
      rewrite E1. unfold bind. rewrite F1. reflexivity.
    + intros j [->|Hj]; [|exact (F2 j Hj)].
      destruct (in_dec Nat.eq_dec j ids) as [Hj|Hj]; [exact (F2 j Hj)|].
      rewrite F4; [exact E2|]. intros k Hk Hkj. injection Hkj as ->. exact (Hj Hk).
    + exact F3.
    + intros k Hk. rewrite F4 by (intros j Hj; apply Hk; right; exact Hj).
      apply E4. apply Hk. left; reflexivity.
Qed.

(** [Executor._exec_inflationary_block] below the threshold: the sample id
    is appended to the block's [input_image_ids], the block is written back
    to the path, and nothing is applied, drawn or deleted. *)
Theorem exec_inflationary_block_buffers (b : Block) (a : Aug) (old new : nat) (s : Ex D) (p : Path) :
  b_kind b = KAugment a ->
  Z.of_nat (S (length (b_pending b))) <> py_round (1 / aug_inflation a) ->
  ex_path D s = Some p ->
  exec_inflationary_block D apply b old new s =
  inr (set_pending (b_pending b ++ [old]) b,
       mkEx D (ex_rng D s) (ex_blocks D s) (ex_data D s)
            (Some (mkPath (p_inputs p) (dict_put (p_augs p) (set_pending (b_pending b ++ [old]) b))))).
Proof.
  intros Hk Hn Hp.
  cbv beta iota delta [exec_inflationary_block assert bind ret put_aug get_path].
  unfold is_Input at 1. rewrite Hk. cbn [negb].
  replace (Z.of_nat (length (b_pending (set_pending (b_pending b ++ [old]) b))) =?
             py_round (1 / inflation (set_pending (b_pending b ++ [old]) b)))%Z with false.
  - rewrite Hp. reflexivity.
  - symmetry. apply Z.eqb_neq. cbn [b_pending set_pending]. unfold inflation. cbn [b_kind set_pending].
    rewrite Hk, length_app, Nat.add_comm. exact Hn.
Qed.

(** [Executor._exec_inflationary_block] at the threshold: once
    [round(1 / inflation)] ids are buffered, the augmentation is applied to
    their samples in arrival order, the result is stored under
    [new_data_id], every buffered id is deleted, the buffer is cleared and
    the block is written back to the path; the other entries of
    [self.__data] are untouched. *)
Theorem exec_inflationary_block_fires (b : Block) (a : Aug) (old new : nat) (s : Ex D) (p : Path)
  (ds : list D) :
  b_kind b = KAugment a ->
  Z.of_nat (length (b_pending b ++ [old])) = py_round (1 / aug_inflation a) ->
  NoDup (b_pending b ++ [old]) -> ~ In new (b_pending b ++ [old]) ->
  NoDup (map fst (ex_data D s)) ->
  Forall2 (fun i d => dlookup D (ex_data D s) (KData i) = Some d) (b_pending b ++ [old]) ds ->
  ex_path D s = Some p ->
  exists l', exec_inflationary_block D apply b old new s =
    inr (set_pending [] b,
         mkEx D (ex_rng D s) (ex_blocks D s) l'
              (Some (mkPath (p_inputs p) (dict_put (p_augs p) (set_pending [] b))))) /\
    dlookup D l' (KData new) = Some (apply a (Many D ds)) /\
    (forall i, In i (b_pending b ++ [old]) -> dlookup D l' (KData i) = None) /\
    NoDup (map fst l') /\
    (forall k, (forall i, In i (b_pending b ++ [old]) -> k <> KData i) -> k <> KData new ->
               dlookup D l' k = dlookup D (ex_data D s) k).
Proof.
  intros Hk Hn Hnd Hnew Hd Hds Hp.
  set (ids := b_pending b ++ [old]) in *.
  set (v := apply a (Many D ds)).
  set (l0 := dset D (ex_data D s) (KData new) v).
  destruct (mapM_data_del (ex_rng D s) (ex_blocks D s) (ex_path D s) ids Hnd l0) as [us [l' [F1 [F2 [F3 F4]]]]].
  { apply dset_keys; exact Hd. }
  { intros i Hi. unfold l0. rewrite dlookup_dset_neq by (intros Hk'; injection Hk' as ->; exact (Hnew Hi)).
    destruct (Forall2_in_left _ _ _ i Hds Hi) as [d Hd']. congruence. }
  exists l'. split; [|split; [|split; [exact F2|split; [exact F3|]]]].
  - cbv beta iota delta [exec_inflationary_block assert bind ret put_aug get_path iterM].
    unfold is_Input at 1. rewrite Hk. cbn [negb b_pending set_pending].
    fold ids.
    replace (Z.of_nat (length ids) =? py_round (1 / inflation (set_pending ids b)))%Z with true
      by (symmetry; apply Z.eqb_eq; unfold inflation; cbn [b_kind set_pending]; rewrite Hk; exact Hn).
    rewrite (mapM_data_get s ids ds Hds).
    unfold data_set. destruct s as [r bl dat pth]. cbn [ex_data ex_rng ex_blocks ex_path] in *.
    unfold execute. cbn [b_kind set_pending]. rewrite Hk. fold v. fold l0.
    rewrite F1. rewrite Hp. reflexivity.
  - rewrite F4.
    + unfold l0. apply dlookup_dset_eq.
    + intros i Hi Hki. injection Hki as ->. exact (Hnew Hi).
  - intros k Hk1 Hk2. rewrite F4 by exact Hk1. unfold l0. apply dlookup_dset_neq; exact Hk2.
Qed.

(** ** [core/data/data.py] *)

(** [Dataset.fetch()] without background and without filter: one draw
    [r] from the shared generator picks [data_packages[int(r * n)]], an
    in-bounds index when [r] is in [[0, 1)]. *)
Theorem dataset_fetch_uniform (ds : Dataset D) (s : Ex D) :
  ds_background D ds = None -> ds_packages D ds <> [] ->
  0 <= draws (ex_rng D s) -> draws (ex_rng D s) < 1 ->
  exists k d, (k < length (ds_packages D ds))%nat /\
    Z.of_nat k = Qfloor (draws (ex_rng D s) * inject_Z (Z.of_nat (length (ds_packages D ds)))) /\
    nth_error (ds_packages D ds) k = Some d /\
    dataset_fetch draws D ds None s =
      inr (d, mkEx D (S (ex_rng D s)) (ex_blocks D s) (ex_data D s) (ex_path D s)).
Proof.
  intros Hb Hne H0 H1.
  destruct (fetch_by_prob_floor (ds_packages D ds) (draws (ex_rng D s)) H0 H1 Hne)
    as [k [d [Hk [Hf [Hn E]]]]].
  exists k, d. split; [exact Hk|]. split; [exact Hf|]. split; [exact Hn|].
  cbv beta iota delta [dataset_fetch get_random bind ret lift rng_pos rng_set Ex_rng].
  rewrite Hb. cbn [ex_rng ex_data ex_blocks ex_path]. rewrite E. reflexivity.
Qed.

(** [Dataset.fetch(filter_)] without background for a filter id: one draw
    [r] picks position [int(r * m)] of the filter's index list (of length
    [m]) and returns the data package at that index; an unknown filter id
    raises [KeyError]. *)
Theorem dataset_fetch_filtered (ds : Dataset D) (s : Ex D) (f : string) :
  ds_background D ds = None ->
  (assoc_str (ds_filter_indexes D ds) f = None -> dataset_fetch draws D ds (Some f) s = inl KeyError) /\
  (forall idx, assoc_str (ds_filter_indexes D ds) f = Some idx -> idx <> [] ->
   0 <= draws (ex_rng D s) -> draws (ex_rng D s) < 1 ->
   exists k i, (k < length idx)%nat /\
     Z.of_nat k = Qfloor (draws (ex_rng D s) * inject_Z (Z.of_nat (length idx))) /\
     nth_error idx k = Some i /\
     dataset_fetch draws D ds (Some f) s =
       match nth_error (ds_packages D ds) i with
       | Some d => inr (d, mkEx D (S (ex_rng D s)) (ex_blocks D s) (ex_data D s) (ex_path D s))
       | None => inl IndexError
       end).
Proof.
  intros Hb. split.
  - intros Ha. cbv beta iota delta [dataset_fetch get_random bind ret lift raise rng_pos rng_set Ex_rng].
    rewrite Hb. cbn [ex_rng]. rewrite Ha. reflexivity.
  - intros idx Ha Hne H0 H1.
    destruct (fetch_by_prob_floor idx (draws (ex_rng D s)) H0 H1 Hne) as [k [i [Hk [Hf [Hn E]]]]].
    exists k, i. split; [exact Hk|]. split; [exact Hf|]. split; [exact Hn|].
    cbv beta iota delta [dataset_fetch get_random bind ret lift rng_pos rng_set Ex_rng].
    rewrite Hb. cbn [ex_rng ex_data ex_blocks ex_path]. rewrite Ha, E.
    unfold py_index. destruct (nth_error (ds_packages D ds) i); reflexivity.
Qed.

(** [Dataset.fetch(filter_)] with a background percentage [q]: a second
    draw below [q] makes the fetch return a background package (position
    [int(r * m)] of the background index list, [r] being the first draw),
    whatever the filter; two draws are consumed. *)
Theorem dataset_fetch_background (ds : Dataset D) (s : Ex D) (f : option string) (q : Q) :
  ds_background D ds = Some q -> draws (S (ex_rng D s)) < q ->
  ds_bg_indexes D ds <> [] -> 0 <= draws (ex_rng D s) -> draws (ex_rng D s) < 1 ->
  exists k i, (k < length (ds_bg_indexes D ds))%nat /\
    Z.of_nat k = Qfloor (draws (ex_rng D s) * inject_Z (Z.of_nat (length (ds_bg_indexes D ds)))) /\
    nth_error (ds_bg_indexes D ds) k = Some i /\
    dataset_fetch draws D ds f s =
      match nth_error (ds_packages D ds) i with
      | Some d => inr (d, mkEx D (S (S (ex_rng D s))) (ex_blocks D s) (ex_data D s) (ex_path D s))
      | None => inl IndexError
      end.
Proof.
  intros Hb Hq Hne H0 H1.
  destruct (fetch_by_prob_floor (ds_bg_indexes D ds) (draws (ex_rng D s)) H0 H1 Hne)
    as [k [i [Hk [Hf [Hn E]]]]].
  exists k, i. split; [exact Hk|]. split; [exact Hf|]. split; [exact Hn|].
  assert (Hl : Qltb (draws (S (ex_rng D s))) q = true).
  { unfold Qltb. apply negb_true_iff. apply not_true_iff_false. rewrite Qle_bool_iff.
    intros Hc. apply (Qlt_not_le _ _ Hq Hc). }
  cbv beta iota delta [dataset_fetch get_random bind ret lift rng_pos rng_set Ex_rng].
  rewrite Hb. cbn [ex_rng ex_data ex_blocks ex_path]. rewrite Hl, E.
  unfold py_index. destruct (nth_error (ds_packages D ds) i); reflexivity.
Qed.

(** [Dataset.fetch] on an empty dataset without background and without
    filter raises [IndexError]. *)
Theorem dataset_fetch_empty (ds : Dataset D) (s : Ex D) :
  ds_background D ds = None -> ds_packages D ds = [] ->
  dataset_fetch draws D ds None s = inl IndexError.
Proof.
  intros Hb He. cbv beta iota delta [dataset_fetch get_random bind ret lift rng_pos rng_set Ex_rng].
  rewrite Hb. cbn [ex_rng]. rewrite (fetch_by_prob_error _ _ (or_introl He)). reflexivity.
Qed.

(** [Dataset.fetch] consumes exactly one draw of the shared generator, or
    two when the dataset has a background percentage, and changes nothing
    else of the executor's state. *)
Theorem dataset_fetch_draws (ds : Dataset D) (f : option string) (s s' : Ex D) (d : D) :
  dataset_fetch draws D ds f s = inr (d, s') ->
  s' = mkEx D (ex_rng D s + match ds_background D ds with Some _ => 2 | None => 1 end)
            (ex_blocks D s) (ex_data D s) (ex_path D s).
Proof.
  cbv beta iota delta [dataset_fetch get_random bind ret lift raise rng_pos rng_set Ex_rng].
  cbn [ex_rng ex_data ex_blocks ex_path]. intros E.
  destruct (ds_background D ds) as [q|].
  - destruct (Qltb _ q).
    + destruct fetch_by_prob; [discriminate|]. destruct py_index; [discriminate|].
      injection E as <- <-. f_equal. lia.
    + destruct f as [f|].
      * destruct assoc_str; [|discriminate]. destruct fetch_by_prob; [discriminate|].
        destruct py_index; [discriminate|]. injection E as <- <-. f_equal. lia.
      * destruct fetch_by_prob; [discriminate|]. injection E as <- <-. f_equal. lia.
  - destruct f as [f|].
    + destruct assoc_str; [|discriminate]. destruct fetch_by_prob; [discriminate|].
      destruct py_index; [discriminate|]. injection E as <- <-. f_equal. lia.
    + destruct fetch_by_prob; [discriminate|]. injection E as <- <-. f_equal. lia.
Qed.

End ExecutorFacts.

(** ** Witnesses: the properties above at concrete inputs *)

(** An object with [inflation = 1], for the executor's non-confluent branch
    taken as written (no class of the module builds one), and the object
    [MixUp(lam=0.5)] builds. *)
Definition flip : Aug := mkAug "Flip" [] 1.
Definition mix : Aug := mkAug "MixUp" [VFloat (1 # 2)] (1 # 2).

(** An [Augment] with two branches, as [Augment.__init__] builds it. *)
Definition aug_blk : Block :=
  mkBlock (Raw "t") [Raw "s"] [Raw "x"; Raw "y"] [1 # 4; 3 # 4] 2 None 1 1 None [] false false
          (KAugment flip).

(** A Source with two branches and one filter per branch. *)
Definition inp_blk : Block :=
  mkBlock (Raw "s") [] [Raw "x"; Raw "y"] [1 # 4; 3 # 4] 2 None 1 1 None [] false true
          (KInput (mkInputF "ds" 100 (Some ["f1"; "f2"]) None None None 1)).

Definition src_blk (name : string) (n : Q) : Block :=
  mkBlock (Raw name) [] [Raw "t"] [1] 1 None 1 1 None [] false true
          (KInput (mkInputF name n None None None None 1)).

(** A confluent block with [inflation = 1/2]: it fires on every second input. *)
Definition confl_blk : Block :=
  mkBlock (New 7) [New 1; New 2] [] [1] 1 (Some 1) 1 1 (Some [1 # 2; 1 # 2]) [] true false
          (KAugment mix).

(** A Source split into two sinks. *)
Definition split_workflow : list RawNode :=
  [ mkRaw "src" [] ["t1"; "t2"] [1 # 2; 1 # 2] (PInput "ds" 100 None);
    mkRaw "t1" ["src"] [] [1] (PAugment "Mosaic" (VInt 1) []);
    mkRaw "t2" ["src"] [] [1] (PAugment "MixUp" (VInt 1) [("lam", VFloat (1 # 2))]) ].

(** A compiled chain: a Source [New 0] feeding a sink [New 1]. *)
Definition chain_blocks : list Block :=
  [ mkBlock (New 0) [] [New 1] [1] 1 (Some 1) 1 1 None [] false true
            (KInput (mkInputF "ds" 100 None (Some 1) (Some 100) None 1));
    mkBlock (New 1) [New 0] [] [1] 1 (Some 1) 1 1 (Some [1]) [] true false (KAugment flip) ].

Lemma fetch_by_prob_in_bounds_witness :
  exists k v, (k < length [10%nat; 20%nat; 30%nat])%nat /\
    Z.of_nat k = Qfloor ((1 # 2) * inject_Z (Z.of_nat (length [10%nat; 20%nat; 30%nat]))) /\
    nth_error [10%nat; 20%nat; 30%nat] k = Some v /\
    fetch_by_prob [10%nat; 20%nat; 30%nat] (1 # 2) = inr v.
Proof.
  apply fetch_by_prob_in_bounds; [discriminate|reflexivity|discriminate].
Defined.

Lemma fetch_by_prob_index_error_witness : fetch_by_prob [10%nat; 20%nat] (3 # 2) = inl IndexError.
Proof.
  apply fetch_by_prob_index_error. right. discriminate.
Defined.

Lemma fetch_by_prob_list_first_exceeding_witness :
  exists v, nth_error [7%nat; 8%nat; 9%nat] 1 = Some v /\
    fetch_by_prob_list (fun _ => 1 # 2) [7%nat; 8%nat; 9%nat] [1 # 4; 1 # 2; 1 # 4] (mkBS 0 []) =
      inr (v, mkBS (S (bs_rng (mkBS 0 []))) (bs_blocks (mkBS 0 []))).
Proof.
  apply (fetch_by_prob_list_first_exceeding (fun _ => 1 # 2) [7%nat; 8%nat; 9%nat]
           [1 # 4; 1 # 2; 1 # 4] 1 (mkBS 0 [])).
  - reflexivity.
  - cbn. lia.
  - vm_compute. reflexivity.
  - intros [|j] Hj; [vm_compute; intros H; discriminate H|lia].
Defined.

Lemma get_seed_range_witness : (10000 <= get_seed (1 # 2) <= 99999)%Z.
Proof.
  apply get_seed_range; [discriminate|reflexivity].
Defined.

Lemma init_block_spec_witness :
  exists b, init_block (Raw "t") [Raw "s"] [] [1 # 2; 1 # 2] (KAugment flip) = inr b /\
    b_is_output b = true /\ b_variations b = 2%nat.
Proof.
  destruct (proj2 (init_block_spec (Raw "t") [Raw "s"] [] [1 # 2; 1 # 2] (KAugment flip)))
    as [b (E & _ & _ & _ & _ & Hv & _ & _ & _ & _ & Ho & _)].
  - right. vm_compute. intros H; discriminate H.
  - exists b. split; [exact E|]. split; [apply Ho; reflexivity|exact Hv].
Defined.

Lemma init_augment_success_witness :
  init_augment (Raw "t") [Raw "s"] [] [1] "MixUp" (VFloat (1 # 2)) [("lam", VFloat (1 # 2))]
    = inr (mkBlock (Raw "t") [Raw "s"] [] [1] 1 None 1 (1 # 2) None [] true false
             (KAugment (mkAug "MixUp" [VFloat (1 # 2)] (1 # 2)))) /\
  exists a, KAugment (mkAug "MixUp" [VFloat (1 # 2)] (1 # 2)) = KAugment a /\
    aug_class a = "MixUp" /\ (1 : Q) = 1 /\
    (("MixUp" = "Mosaic" /\ aug_inflation a = 1 # 4) \/
     ("MixUp" = "MixUp" /\ aug_inflation a = 1 # 2 /\
      exists l, aug_params a = [l] /\ py_le (VFloat (2 # 5)) l = inr true /\
                py_le l (VFloat (3 # 5)) = inr true)) /\
    ((VFloat (1 # 2) = VFloat (1 # 2) /\ 0 <= 1 # 2 <= 1) \/
     (py_eq (VFloat (1 # 2)) (VInt 1) = true /\ (1 # 2) = 1)).
Proof.
  split; [reflexivity|].
  exact (init_augment_success (Raw "t") [Raw "s"] [] [1] "MixUp" (VFloat (1 # 2))
           [("lam", VFloat (1 # 2))]
           (mkBlock (Raw "t") [Raw "s"] [] [1] 1 None 1 (1 # 2) None [] true false
              (KAugment (mkAug "MixUp" [VFloat (1 # 2)] (1 # 2)))) eq_refl).
Defined.

Lemma init_augment_int_exe_prob_witness :
  ([1] = [] \/ ~ Qsum [1] == 0) /\ 0%Z <> 1%Z /\
  init_augment (Raw "t") [Raw "s"] [] [1] "Mosaic" (VInt 0) [] = inl AssertionError.
Proof.
  assert (Hsh : [1] = [] \/ ~ Qsum [1] == 0) by (right; vm_compute; discriminate).
  split; [exact Hsh|]. split; [discriminate|].
  exact (init_augment_int_exe_prob (Raw "t") [Raw "s"] [] [1] "Mosaic" 0 [] Hsh ltac:(discriminate)).
Defined.

Lemma init_input_filters_witness :
  init_input (Raw "s") [Raw "t"; Raw "u"] [1 # 2; 1 # 2] "ds" 100 (Some ["f"]) = inl AssertionError.
Proof.
  refine (proj2 (init_input_filters (Raw "s") [Raw "t"; Raw "u"] [1 # 2; 1 # 2] "ds" 100 (Some ["f"]) _)
            ["f"] _ _ _).
  - right. vm_compute. intros H; discriminate H.
  - reflexivity.
  - discriminate.
  - cbn. lia.
Defined.

Lemma set_block_augment_witness :
  exists b', set_block aug_blk 1 = inr b' /\ b_share b' = Some (3 # 4) /\ b_next b' = [Raw "y"].
Proof.
  destruct (proj2 (proj2 (set_block_augment aug_blk flip 1 eq_refl)) (3 # 4))
    as (b' & E & Hs & _ & Hn & _).
  - cbn. lia.
  - reflexivity.
  - right. cbn. lia.
  - cbn in Hn. destruct Hn as (n & En & Hn). injection En as <-.
    exists b'. split; [exact E|]. split; [exact Hs|exact Hn].
Defined.

Lemma set_block_input_witness :
  exists b' f', set_block inp_blk 1 = inr b' /\ b_kind b' = KInput f' /\
    i_n_data f' = Some (100 * (3 # 4)) /\ i_filter f' = Some "f2".
Proof.
  destruct (set_block_input inp_blk (mkInputF "ds" 100 (Some ["f1"; "f2"]) None None None 1)
              1 (Raw "y") (3 # 4))
    as (b' & f' & E & Hk & _ & _ & _ & _ & _ & Hn & _ & Hf).
  - reflexivity.
  - cbn. lia.
  - reflexivity.
  - reflexivity.
  - cbn. lia.
  - exists b', f'. split; [exact E|]. split; [exact Hk|]. split; [exact Hn|exact Hf].
Defined.

Lemma dup_index_first_witness :
  exists e, nth_error [inp_blk; aug_blk] 1 = Some e /\ block_eqb e (set_id (New 5) aug_blk) = true /\
    is_Input e = false.
Proof.
  destruct (dup_index_first [inp_blk; aug_blk] (set_id (New 5) aug_blk) 1)
    as (e & He & Hb & Hi & _).
  - vm_compute. reflexivity.
  - exists e. split; [exact He|]. split; [exact Hb|exact Hi].
Defined.

Lemma dup_index_ignores_links_witness :
  dup_index [inp_blk; aug_blk] aug_blk =
  dup_index [inp_blk; aug_blk] (set_ext (1 # 3) (set_next [Raw "z"] (set_id (New 9) aug_blk))).
Proof.
  apply dup_index_ignores_links; reflexivity.
Defined.

Lemma set_ipt_blocks_exe_prob_sum_witness :
  exists l, set_ipt_blocks_exe_prob [src_blk "a" 100; aug_blk; src_blk "b" 300] = inr l /\
    map b_id l = map b_id [src_blk "a" 100; aug_blk; src_blk "b" 300] /\
    Qsum (map b_ext (get_input_blocks l)) == 1.
Proof.
  apply set_ipt_blocks_exe_prob_sum.
  - repeat constructor.
  - vm_compute. intros H; discriminate H.
Defined.

Lemma set_ipt_blocks_exe_prob_zero_witness :
  set_ipt_blocks_exe_prob [src_blk "a" 0; aug_blk] = inl ZeroDivisionError.
Proof.
  apply set_ipt_blocks_exe_prob_zero.
  - vm_compute. intros H; discriminate H.
  - vm_compute. reflexivity.
Defined.

Lemma prev_weights_normalized_witness :
  (exists ws, prev_weights confl_blk = inr ws /\ length ws = length [1 # 2; 1 # 2] /\ Qsum ws == 1) /\
  prev_weights (set_prev_ext [0; 0] confl_blk) = inl ZeroDivisionError.
Proof.
  split.
  - apply (proj1 (prev_weights_normalized confl_blk [1 # 2; 1 # 2] eq_refl)).
    vm_compute. intros H; discriminate H.
  - apply (proj2 (prev_weights_normalized (set_prev_ext [0; 0] confl_blk) [0; 0] eq_refl)).
    + discriminate.
    + vm_compute. reflexivity.
Defined.

Lemma compile_chain_blocks_witness :
  match compile 0 split_workflow with
  | inr bs => bs <> [] /\ Forall chain_block bs
  | inl _ => False
  end.
Proof.
  destruct (compile 0 split_workflow) as [e|bs] eqn:E.
  - vm_compute in E. discriminate.
  - split; [|exact (compile_chain_blocks 0 split_workflow bs E)].
    pose proof E as E'. vm_compute in E'. injection E' as <-. discriminate.
Defined.

Definition ex_state : Ex nat := mkEx nat 0 [] [(KData 3, 42%nat); (KOut, 0%nat)] None.

Lemma exec_input_block_moves_witness :
  exists l', exec_input_block nat inp_blk 3 4 ex_state = inr (tt, mkEx nat 0 [] l' None) /\
    dlookup nat l' (KData 4) = Some 42%nat /\ dlookup nat l' (KData 3) = None /\
    dlookup nat l' KOut = Some 0%nat.
Proof.
  destruct (exec_input_block_moves nat inp_blk 3 4 ex_state 42%nat)
    as (l' & E & H4 & H3 & _ & Hk).
  - reflexivity.
  - cbn. constructor; [intros [H|[]]; discriminate H|constructor; [intros []|constructor]].
  - reflexivity.
  - discriminate.
  - exists l'. split; [exact E|]. split; [exact H4|]. split; [exact H3|].
    rewrite Hk; [reflexivity|discriminate|discriminate].
Defined.

Lemma exec_input_block_errors_witness :
  exec_input_block nat aug_blk 3 4 ex_state = inl AssertionError /\
  exec_input_block nat inp_blk 5 6 ex_state = inl KeyError.
Proof.
  split.
  - apply (proj1 (exec_input_block_errors nat aug_blk 3 4 ex_state)). reflexivity.
  - apply (proj2 (exec_input_block_errors nat inp_blk 5 6 ex_state)). reflexivity.
Defined.

Lemma exec_augment_block_step_witness :
  exists l', exec_augment_block (fun _ => 1 # 4) nat (fun _ _ => 7%nat) aug_blk 3 4 ex_state =
               inr (aug_blk, mkEx nat 1 [] l' None) /\
    dlookup nat l' (KData 4) = Some 7%nat /\ dlookup nat l' (KData 3) = None.
Proof.
  destruct (exec_augment_block_step (fun _ => 1 # 4) nat (fun _ _ => 7%nat) aug_blk flip 3 4 ex_state 42%nat)
    as (l' & E & H4 & H3 & _).
  - reflexivity.
  - discriminate.
  - cbn. constructor; [intros [H|[]]; discriminate H|constructor; [intros []|constructor]].
  - reflexivity.
  - discriminate.
  - exists l'. split; [exact E|]. split; [exact H4|exact H3].
Defined.

Definition ex_path_state : Ex nat :=
  mkEx nat 0 [] [(KData 3, 10%nat); (KData 5, 20%nat)] (Some (mkPath [] [])).

Lemma exec_inflationary_block_buffers_witness :
  exec_inflationary_block nat (fun _ _ => 7%nat) confl_blk 3 4 ex_path_state =
  inr (set_pending [3%nat] confl_blk,
       mkEx nat 0 [] [(KData 3, 10%nat); (KData 5, 20%nat)]
            (Some (mkPath [] [set_pending [3%nat] confl_blk]))).
Proof.
  apply (exec_inflationary_block_buffers nat (fun _ _ => 7%nat) confl_blk mix 3 4 ex_path_state
           (mkPath [] [])).
  - reflexivity.
  - vm_compute. intros H; discriminate H.
  - reflexivity.
Defined.

Lemma exec_inflationary_block_fires_witness :
  exists l', exec_inflationary_block nat (fun _ _ => 7%nat) (set_pending [3%nat] confl_blk) 5 6
               ex_path_state =
    inr (set_pending [] (set_pending [3%nat] confl_blk),
         mkEx nat 0 [] l' (Some (mkPath [] [set_pending [] (set_pending [3%nat] confl_blk)]))) /\
    dlookup nat l' (KData 6) = Some 7%nat /\
    dlookup nat l' (KData 3) = None /\ dlookup nat l' (KData 5) = None.
Proof.
  destruct (exec_inflationary_block_fires nat (fun _ _ => 7%nat) (set_pending [3%nat] confl_blk) mix
              5 6 ex_path_state (mkPath [] []) [10%nat; 20%nat])
    as (l' & E & H6 & Hdel & _).
  - reflexivity.
  - vm_compute. reflexivity.
  - cbn. constructor; [intros [H|[]]; discriminate H|constructor; [intros []|constructor]].
  - cbn. intros [H|[H|[]]]; discriminate H.
  - cbn. constructor; [intros [H|[]]; discriminate H|constructor; [intros []|constructor]].
  - repeat constructor.
  - reflexivity.
  - exists l'. split; [exact E|]. split; [exact H6|].
    split; apply Hdel; cbn; auto.
Defined.

Definition small_ds : Dataset nat :=
  mkDataset nat "d" [10%nat; 20%nat; 30%nat] None [] [("f", [2%nat; 0%nat])].
Definition bg_ds : Dataset nat :=
  mkDataset nat "b" [10%nat; 20%nat] (Some (1 # 2)) [1%nat] [].
Definition empty_ds : Dataset nat := mkDataset nat "e" [] None [] [].
Definition ex0 : Ex nat := mkEx nat 0 [] [] None.
Definition two_draws (n : nat) : Q := if Nat.eqb n 0 then 1 # 2 else 1 # 4.

Lemma dataset_fetch_uniform_witness :
  exists k d, (k < length [10%nat; 20%nat; 30%nat])%nat /\
    Z.of_nat k = Qfloor ((1 # 2) * inject_Z (Z.of_nat (length [10%nat; 20%nat; 30%nat]))) /\
    nth_error [10%nat; 20%nat; 30%nat] k = Some d /\
    dataset_fetch (fun _ => 1 # 2) nat small_ds None ex0 = inr (d, mkEx nat 1 [] [] None).
Proof.
  apply (dataset_fetch_uniform (fun _ => 1 # 2) nat small_ds ex0).
  - reflexivity.
  - discriminate.
  - discriminate.
  - reflexivity.
Defined.

Lemma dataset_fetch_filtered_witness :
  dataset_fetch (fun _ => 1 # 2) nat small_ds (Some "g") ex0 = inl KeyError /\
  exists k i, (k < length [2%nat; 0%nat])%nat /\
    Z.of_nat k = Qfloor ((1 # 2) * inject_Z (Z.of_nat (length [2%nat; 0%nat]))) /\
    nth_error [2%nat; 0%nat] k = Some i /\
    dataset_fetch (fun _ => 1 # 2) nat small_ds (Some "f") ex0 =
      match nth_error [10%nat; 20%nat; 30%nat] i with
      | Some d => inr (d, mkEx nat 1 [] [] None)
      | None => inl IndexError
      end.
Proof.
  split.
  - apply (proj1 (dataset_fetch_filtered (fun _ => 1 # 2) nat small_ds ex0 "g" eq_refl)).
    reflexivity.
  - apply (proj2 (dataset_fetch_filtered (fun _ => 1 # 2) nat small_ds ex0 "f" eq_refl)).
    + reflexivity.
    + discriminate.
    + discriminate.
    + reflexivity.
Defined.

Lemma dataset_fetch_background_witness :
  exists k i, (k < length [1%nat])%nat /\
    Z.of_nat k = Qfloor (two_draws 0 * inject_Z (Z.of_nat (length [1%nat]))) /\
    nth_error [1%nat] k = Some i /\
    dataset_fetch two_draws nat bg_ds (Some "f") ex0 =
      match nth_error [10%nat; 20%nat] i with
      | Some d => inr (d, mkEx nat 2 [] [] None)
      | None => inl IndexError
      end.
Proof.
  apply (dataset_fetch_background two_draws nat bg_ds ex0 (Some "f") (1 # 2)).
  - reflexivity.
  - reflexivity.
  - discriminate.
  - discriminate.
  - reflexivity.
Defined.

Lemma dataset_fetch_empty_witness :
  dataset_fetch (fun _ => 1 # 2) nat empty_ds None ex0 = inl IndexError.
Proof.
  apply dataset_fetch_empty; reflexivity.
Defined.

Lemma dataset_fetch_draws_witness :
  match dataset_fetch two_draws nat bg_ds None ex0 with
  | inr (_, s') => s' = mkEx nat 2 [] [] None
  | inl _ => False
  end.
Proof.
  destruct (dataset_fetch two_draws nat bg_ds None ex0) as [e|[d s']] eqn:E.
  - vm_compute in E. discriminate.
  - exact (dataset_fetch_draws two_draws nat bg_ds None ex0 s' d E).
Defined.
